(** * DayZ mod update notifier: change detection, batching and notification

    A shallow embedding of [mod_notifier.py] (class [DayZModNotifier]) and the
    properties of its change-detection loop.

    Modelling choices, all taken from the source:
    - table [mod_updates] is a finite map from [mod_id] (TEXT PRIMARY KEY) to
      its row; the three SQL statements of [check_for_updates] become a lookup
      and two kinds of insert on that map;
    - Python integers are [Z]; an integer bound to a statement must fit
      SQLite's 64-bit INTEGER, or the call raises [OverflowError], and a
      timestamp given to [datetime.fromtimestamp] must fall in the years the
      library knows, or the call raises;
    - an exception that nothing catches leaves [check_for_updates] before
      [conn.commit()]: the writes of the cycle are lost, nothing is returned
      and the later batches are not requested;
    - what the program cannot compute by itself is an oracle of the
      environment: the reply of Steam to the k-th request, the value of the
      k-th [time.time()] read, the local-time rendering of a timestamp;
    - the Steam reply is typed after the JSON the code reads; the keys it
      indexes ([publishedfiledetails], [result], [publishedfileid]) may be
      missing, which raises [KeyError], and the keys it reads with [.get]
      ([title], [time_updated]) may be missing too;
    - the outbound calls ([requests.post], [time.sleep]) are logged in a trace;
      [print] is not modelled. *)

From stdpp Require Import gmap strings list pretty.
From Stdlib Require Import ZArith Lia.

Local Open Scope string_scope.

(** ** Data model *)

(** A row of table [mod_updates]; the key [mod_id] is the key of the map. *)
Record row := Row {
  last_updated : Z;
  mod_name : string;
  last_checked : Z
}.

(** An element of [publishedfiledetails] that has the two keys the code
    indexes. [title] and [time_updated] are read with [.get], so they may be
    absent. *)
Record file_details := FileDetails {
  result : Z;
  publishedfileid : string;
  title : option string;
  time_updated : option Z
}.

(** An element of [mod_data['response']['publishedfiledetails']]: with both
    indexed keys, without ['result'], or with ['result'] and without
    ['publishedfileid']. *)
Inductive details_entry :=
| Details (d : file_details)
| NoResult
| NoPublishedFileId (code : Z).

(** The value of [mod_data['response']]: the key ['publishedfiledetails'] may
    be absent. *)
Record response_body := ResponseBody {
  publishedfiledetails : option (list details_entry)
}.

(** The decoded JSON body of a reply: the key ['response'] may be absent (an
    empty body has no key at all). *)
Record mod_data := ModData {
  response : option response_body
}.

(** The dict appended to [updated_mods]. *)
Record updated_mod := UpdatedMod {
  id : string;
  name : string;
  updated : string;
  url : string
}.

(** Discord embed field, embed and webhook payload. *)
Record embed_field := EmbedField {
  field_name : string;
  field_value : string;
  inline : bool
}.

Record embed := Embed {
  embed_title : string;
  description : string;
  color : Z;
  timestamp : string;
  footer_text : string;
  fields : list embed_field
}.

Record payload := Payload {
  embeds : list embed;
  content : string
}.

(** Outbound calls, in the order the program makes them. *)
Inductive effect :=
| SteamPost (batch : list string)
| Sleep (seconds : Z)
| DiscordPost (body : payload).

(** The exceptions that leave [check_for_updates]. For a timestamp beyond the
    platform's [time_t] the library raises [OverflowError] or [OSError] where
    the model says [ValueError]; all of them are caught by [except Exception]
    only. *)
Inductive exn :=
| KeyError (key : string)
| OverflowError
| ValueError.

(** The environment of one cycle. [steam_api k batch] is what
    [get_mod_info] returns for the k-th request of the cycle ([None] when the
    request raised [RequestException]); [time_time k] is the value of the k-th
    [int(time.time())], the clock of the system, taken to fit SQLite's
    INTEGER; [strftime ts] renders
    [datetime.fromtimestamp(ts).strftime('%Y-%m-%d %H:%M:%S')] for a timestamp
    the library accepts. *)
Record env := Env {
  steam_api : nat → list string → option mod_data;
  time_time : nat → Z;
  strftime : Z → string
}.

(** The integers SQLite stores: a Python int outside makes [execute] raise
    [OverflowError]. *)
Definition sqlite_integer (v : Z) : Prop := (- 2 ^ 63 ≤ v < 2 ^ 63)%Z.

(** The timestamps [datetime.fromtimestamp] accepts: those of the years 1 to
    9999. The bounds are written for UTC; the local offset of the platform
    moves them by less than a day. *)
Definition datetime_range (ts : Z) : Prop :=
  (-62135596800 ≤ ts ≤ 253402300799)%Z.

(** ** The state threaded through [check_for_updates] *)

Record world := World {
  conn : gmap string row;
  updated_mods : list updated_mod;
  clock_reads : nat;
  requests : nat;
  trace : list effect
}.

(** What a statement gives: a value, or an exception. *)
Inductive res (A : Type) :=
| Value (a : A)
| Raised (e : exn).

Arguments Value {A} a.
Arguments Raised {A} e.

Definition M (A : Type) : Type := world → res A * world.

Definition ret {A} (a : A) : M A := λ w, (Value a, w).

Definition raise {A} (e : exn) : M A := λ w, (Raised e, w).

Definition bind {A B} (m : M A) (k : A → M B) : M B :=
  λ w, match m w with
       | (Value a, w') => k a w'
       | (Raised e, w') => (Raised e, w')
       end.

Declare Scope prog_scope.
Delimit Scope prog_scope with prog.
Notation "'let*' x := m 'in' k" := (bind m (λ x, k))
  (at level 10, x name, m at level 100, k at level 200) : prog_scope.
Notation "m ;; k" := (bind m (λ _, k))
  (at level 100, k at level 200, right associativity) : prog_scope.
Local Open Scope prog_scope.

(** [for x in l: body x] *)
Fixpoint for_each {A} (body : A → M unit) (l : list A) : M unit :=
  match l with
  | [] => ret tt
  | x :: l' => body x ;; for_each body l'
  end.

(** *** Primitive operations *)

(** [int(time.time())] *)
Definition now (E : env) : M Z :=
  λ w, (Value (time_time E (clock_reads w)),
        World (conn w) (updated_mods w) (S (clock_reads w)) (requests w) (trace w)).

(** [time.sleep(secs)] *)
Definition sleep (secs : Z) : M unit :=
  λ w, (Value tt, World (conn w) (updated_mods w) (clock_reads w) (requests w)
                        (trace w ++ [Sleep secs])%list).

(** [SELECT last_updated FROM mod_updates WHERE mod_id = ?] and [fetchone()] *)
Definition select_last_updated (mod_id : string) : M (option Z) :=
  λ w, (Value (last_updated <$> conn w !! mod_id), w).

(** [INSERT INTO mod_updates (mod_id, last_updated, mod_name, last_checked)
     VALUES (?, ?, ?, ?)]; only run when no row has the key. *)
Definition insert_row (mod_id : string) (lu : Z) (nm : string) (lc : Z) : M unit :=
  λ w, if decide (sqlite_integer lu)
       then (Value tt, World (<[mod_id := Row lu nm lc]> (conn w)) (updated_mods w)
                             (clock_reads w) (requests w) (trace w))
       else (Raised OverflowError, w).

(** [UPDATE mod_updates SET last_updated = ?, mod_name = ?, last_checked = ?
     WHERE mod_id = ?] *)
Definition update_row (lu : Z) (nm : string) (lc : Z) (mod_id : string) : M unit :=
  λ w, if decide (sqlite_integer lu)
       then (Value tt, World (alter (λ _, Row lu nm lc) mod_id (conn w)) (updated_mods w)
                             (clock_reads w) (requests w) (trace w))
       else (Raised OverflowError, w).

(** [UPDATE mod_updates SET last_checked = ? WHERE mod_id = ?] *)
Definition update_last_checked (lc : Z) (mod_id : string) : M unit :=
  λ w, (Value tt,
        World (alter (λ r, Row (last_updated r) (mod_name r) lc) mod_id (conn w))
              (updated_mods w) (clock_reads w) (requests w) (trace w)).

(** [updated_mods.append(m)] *)
Definition append_updated (m : updated_mod) : M unit :=
  λ w, (Value tt, World (conn w) (updated_mods w ++ [m])%list (clock_reads w)
                        (requests w) (trace w)).

(** [datetime.fromtimestamp(ts).strftime('%Y-%m-%d %H:%M:%S')] *)
Definition fromtimestamp_strftime (E : env) (ts : Z) : M string :=
  if decide (datetime_range ts) then ret (strftime E ts) else raise ValueError.

(** [get_mod_info]: one POST carrying the batch; the reply, or [None] when the
    request failed. *)
Definition get_mod_info (E : env) (mod_ids_batch : list string) : M (option mod_data) :=
  λ w, (Value (steam_api E (requests w) mod_ids_batch),
        World (conn w) (updated_mods w) (clock_reads w) (S (requests w))
              (trace w ++ [SteamPost mod_ids_batch])%list).

(** ** [check_for_updates] *)

Definition detail_url (mod_id : string) : string :=
  "https://steamcommunity.com/sharedfiles/filedetails/?id=" +:+ mod_id.

(** [file_details.get('title', f'Mod {mod_id}')] *)
Definition observed_name (d : file_details) : string :=
  default ("Mod " +:+ publishedfileid d) (title d).

(** [file_details.get('time_updated', 0)] *)
Definition observed_updated (d : file_details) : Z :=
  default 0%Z (time_updated d).

(** Lines 98-135, for an element that has its two indexed keys and code 1. *)
Definition record_details (E : env) (d : file_details) : M unit :=
  let mod_id := publishedfileid d in
  let mod_name := observed_name d in
  let last_updated := observed_updated d in
  let* res := select_last_updated mod_id in
  match res with
  | None =>
      let* t := now E in
      insert_row mod_id last_updated mod_name t
  | Some stored =>
      if decide (stored < last_updated)%Z then
        let* t := now E in
        update_row last_updated mod_name t mod_id ;;
        let* rendered := fromtimestamp_strftime E last_updated in
        append_updated
          {| id := mod_id; name := mod_name;
             updated := rendered;
             url := detail_url mod_id |}
      else
        let* t := now E in
        update_last_checked t mod_id
  end.

(** Body of the inner loop, lines 95-135. [file_details['result']] is indexed
    first, [file_details['publishedfileid']] only for code 1. *)
Definition process_file_details (E : env) (fd : details_entry) : M unit :=
  match fd with
  | NoResult => raise (KeyError "result")
  | NoPublishedFileId code =>
      if decide (code ≠ 1%Z) then ret tt else raise (KeyError "publishedfileid")
  | Details d =>
      if decide (result d ≠ 1%Z) then ret tt else record_details E d
  end.

(** Body of the outer loop, lines 88-138. The [continue] of line 92 leaves the
    iteration before the inner loop and before [time.sleep(1)]. *)
Definition process_batch (E : env) (batch : list string) : M unit :=
  let* mod_data := get_mod_info E batch in
  match mod_data with
  | Some {| response := Some body |} =>
      match publishedfiledetails body with
      | None => raise (KeyError "publishedfiledetails")
      | Some details =>
          for_each (process_file_details E) details ;;
          sleep 1
      end
  | _ => ret tt
  end.

(** Python's [range(0, stop, step)] for a positive [step]. *)
Definition range_step (stop step : nat) : list nat :=
  (λ k, k * step) <$> seq 0 ((stop + step - 1) / step).

(** Python's [l[i:j]] for [0 <= i <= j]. *)
Definition slice {A} (l : list A) (i j : nat) : list A :=
  take (j - i) (drop i l).

Definition batch_size : nat := 100.

(** The batches the outer loop iterates over. *)
Definition batches (mod_ids : list string) : list (list string) :=
  (λ i, slice mod_ids i (i + batch_size)) <$> range_step (length mod_ids) batch_size.

Definition initial_world (db : gmap string row) : world :=
  World db [] 0 0 [].

(** The whole method, as a state transformer. *)
Definition check_for_updates_prog (E : env) (mod_ids : list string) : M unit :=
  for_each (process_batch E) (batches mod_ids).

(** How a call of [check_for_updates] ends: it returns [updated_mods] after
    [conn.commit()], or an exception leaves it before the commit and the
    table is the one it started from. Either way the outbound calls made so
    far have been made. *)
Inductive outcome :=
| Returns (updated_mods : list updated_mod) (db : gmap string row) (calls : list effect)
| Raises (e : exn) (db : gmap string row) (calls : list effect).

Definition check_for_updates (E : env) (mod_ids : list string) (db : gmap string row)
  : outcome :=
  match check_for_updates_prog E mod_ids (initial_world db) with
  | (Value _, w) => Returns (updated_mods w) (conn w) (trace w)
  | (Raised e, w) => Raises e db (trace w)
  end.

(** The projections of a cycle's outcome: the list returned (none when the
    cycle raised), the table left, the outbound calls, the exception. *)
Definition cycle_events (E : env) (mod_ids : list string) (db : gmap string row)
  : list updated_mod :=
  match check_for_updates E mod_ids db with
  | Returns updated_mods _ _ => updated_mods
  | Raises _ _ _ => []
  end.

Definition cycle_db (E : env) (mod_ids : list string) (db : gmap string row)
  : gmap string row :=
  match check_for_updates E mod_ids db with
  | Returns _ db' _ => db'
  | Raises _ db' _ => db'
  end.

Definition cycle_trace (E : env) (mod_ids : list string) (db : gmap string row)
  : list effect :=
  match check_for_updates E mod_ids db with
  | Returns _ _ calls => calls
  | Raises _ _ calls => calls
  end.

Definition cycle_exception (E : env) (mod_ids : list string) (db : gmap string row)
  : option exn :=
  match check_for_updates E mod_ids db with
  | Returns _ _ _ => None
  | Raises e _ _ => Some e
  end.

(** ** [send_discord_notification] *)

(** Python's newline escape inside the field value. *)
Definition nl : string := String (Ascii.ascii_of_nat 10) "".

(** One field per shown mod, lines 162-166. *)
Definition mod_field (m : updated_mod) : embed_field :=
  {| field_name := "📦 " +:+ name m;
     field_value := "**Updated:** " +:+ updated m +:+ nl +:+
                    "**ID:** `" +:+ id m +:+ "`" +:+ nl +:+
                    "[View on Workshop](" +:+ url m +:+ ")";
     inline := true |}.

(** The field of lines 169-173; [more] is [len(updated_mods) - 10]. *)
Definition additional_field (more : nat) : embed_field :=
  {| field_name := "➕ Additional Updates";
     field_value := "And " +:+ pretty more +:+ " more mods were updated.";
     inline := false |}.

(** The field of lines 176-180. *)
Definition action_field : embed_field :=
  {| field_name := "⚠️ Action Required";
     field_value := "Your GTX Gaming server may need to be restarted to apply these mod updates.";
     inline := false |}.

(** [embed["fields"]] once lines 161-180 have run. *)
Definition embed_fields (updated_mods : list updated_mod) : list embed_field :=
  let fields := mod_field <$> take 10 updated_mods in
  let fields :=
    if decide (10 < length updated_mods)
    then (fields ++ [additional_field (length updated_mods - 10)])%list
    else fields in
  (fields ++ [action_field])%list.

Definition build_payload (now_iso : string) (updated_mods : list updated_mod) : payload :=
  {| embeds :=
       [ {| embed_title := "🔄 DayZ Server Mod Updates Detected!";
            description := "**" +:+ pretty (length updated_mods) +:+ " mod(s) have been updated**";
            color := 0x00ff00;
            timestamp := now_iso;
            footer_text := "GTX Gaming DayZ Server Monitor";
            fields := embed_fields updated_mods |} ];
     content := "@here Mod updates detected for DayZ server!" |}.

(** [send_discord_notification]: the calls made to the webhook. [now_iso] is
    [datetime.now().isoformat()]. Whether the POST succeeds or raises
    [RequestException] only changes what is printed. *)
Definition send_discord_notification (now_iso : string) (updated_mods : list updated_mod)
  : list effect :=
  match updated_mods with
  | [] => []
  | _ => [DiscordPost (build_payload now_iso updated_mods)]
  end.

(** [run_check]: one cycle and its notification; returns the table left and
    every outbound call. An exception that leaves [check_for_updates] leaves
    [run_check] as well, before any notification; [cycle_exception] tells
    which. *)
Definition run_check (E : env) (now_iso : string) (mod_ids : list string)
    (db : gmap string row) : gmap string row * list effect :=
  match check_for_updates E mod_ids db with
  | Returns updated_mods db' tr =>
      match updated_mods with
      | [] => (db', tr)
      | _ => (db', (tr ++ send_discord_notification now_iso updated_mods)%list)
      end
  | Raises _ db' tr => (db', tr)
  end.

(** The loop of [run_monitor], unrolled over the iterations that no
    [KeyboardInterrupt] cuts short; [its] gives the environment of each and
    its [datetime.now().isoformat()]. After a check that returns the loop
    sleeps [check_interval]; after one that raises, the handler of
    [Exception] sleeps 60 seconds and the loop goes on. *)
Fixpoint run_monitor (check_interval : Z) (its : list (env * string))
    (mod_ids : list string) (db : gmap string row) : gmap string row * list effect :=
  match its with
  | [] => (db, [])
  | it :: its' =>
      let r := run_check it.1 it.2 mod_ids db in
      let pause :=
        match cycle_exception it.1 mod_ids db with
        | None => check_interval
        | Some _ => 60%Z
        end in
      let r' := run_monitor check_interval its' mod_ids r.1 in
      (r'.1, (r.2 ++ Sleep pause :: r'.2)%list)
  end.

(** The ids configured in [__init__]. *)
Definition configured_mod_ids : list string :=
  [ "2579252958"; "3413364741"; "2628707698"; "1710977250"; "2794690371";
    "2705731852"; "1565871491"; "1932611410"; "3353822981"; "1559212036";
    "2851058261"; "3347202534"; "1646187754"; "1564026768"; "2810212624";
    "3071767590"; "3051379451"; "2545327648"; "2794626429"; "1750506510";
    "2714183642"; "2931436407"; "2246697421"; "2428595209"; "3487506464";
    "2903723881"; "2181531192"; "2601606391"; "1964490092"; "3495385414";
    "3494856709"; "3577460706"; "3483591601"; "3483631928"; "3483633965";
    "3566588945"; "3492829525"; "3485866845"; "3520324415"; "3495004422";
    "3440974241"; "3452063031"; "3049835903"; "3419019141"; "3007376094";
    "2663169692"; "2299460322"; "2913803769"; "3390675689"; "3219973018";
    "2842779598"; "2007900691"; "3332001143"; "2878980498"; "3310715247";
    "3117613872"; "2879070654"; "2692979668"; "2848159851"; "3528780688";
    "2936585965"; "2443122116"; "3439337803"; "2458896948"; "1828439124";
    "1797720064"; "3017273820"; "3036319373" ].

(** The batches posted to Steam, the sleeps and the payloads posted to the
    Discord webhook, read off a trace. *)
Definition steam_posts (tr : list effect) : list (list string) :=
  omap (λ e, match e with SteamPost b => Some b | _ => None end) tr.

Definition sleeps (tr : list effect) : list Z :=
  omap (λ e, match e with Sleep s => Some s | _ => None end) tr.

Definition discord_posts (tr : list effect) : list payload :=
  omap (λ e, match e with DiscordPost p => Some p | _ => None end) tr.

Local Close Scope string_scope.

(** ** The rest of the program *)

(** [init_database]: the database file either holds table [mod_updates]
    already ([Some] of its rows) or not; [CREATE TABLE IF NOT EXISTS] creates
    it, empty, in the second case only. *)
Definition init_database (file : option (gmap string row)) : gmap string row :=
  match file with
  | Some table => table
  | None => ∅
  end.





(** ** Definitions used to state the properties *)

(** A result the inner loop does not skip: [file_details['result'] == 1]. *)
Definition succeeded (d : file_details) : Prop := result d = 1%Z.

#[global] Instance succeeded_dec d : Decision (succeeded d).
Proof. unfold succeeded. apply _. Defined.

(** The value of ['result'] in an element, when it has the key. *)
Definition entry_code (fd : details_entry) : option Z :=
  match fd with
  | Details d => Some (result d)
  | NoResult => None
  | NoPublishedFileId code => Some code
  end.

(** The elements with both keys and code 1: those the inner loop records. *)
Definition code_1_details (entries : list details_entry) : list file_details :=
  omap (λ fd, match fd with
              | Details d => if decide (succeeded d) then Some d else None
              | _ => None
              end) entries.

(** The results of one reply that the inner loop records; none when the
    request failed or the body lacks ['response'] or
    ['publishedfiledetails']. *)
Definition batch_results (r : option mod_data) : list file_details :=
  match r with
  | Some {| response := Some {| publishedfiledetails := Some entries |} |} =>
      code_1_details entries
  | _ => []
  end.

(** The reply passes the guard of line 91. *)
Definition batch_ok (r : option mod_data) : bool :=
  match r with
  | Some {| response := Some _ |} => true
  | _ => false
  end.

(** The results recorded by a cycle that returns, in processing order, when
    the first request has number [k]. *)
Fixpoint cycle_results (E : env) (k : nat) (bs : list (list string)) : list file_details :=
  match bs with
  | [] => []
  | b :: bs' => batch_results (steam_api E k b) ++ cycle_results E (S k) bs'
  end.

Definition observations (E : env) (mod_ids : list string) : list file_details :=
  cycle_results E 0 (batches mod_ids).

(** The outbound calls of a cycle that returns. *)
Fixpoint cycle_effects (E : env) (k : nat) (bs : list (list string)) : list effect :=
  match bs with
  | [] => []
  | b :: bs' =>
      SteamPost b ::
      (if batch_ok (steam_api E k b) then [Sleep 1] else []) ++
      cycle_effects E (S k) bs'
  end.

(** The number of batches whose reply passes the guard of line 91. *)
Fixpoint ok_batches (E : env) (k : nat) (bs : list (list string)) : nat :=
  match bs with
  | [] => 0
  | b :: bs' =>
      (if batch_ok (steam_api E k b) then 1 else 0) + ok_batches E (S k) bs'
  end.

(** The row written for a result read at time [t], given the row found. *)
Definition reconciled_row (t : Z) (d : file_details) (old : option row) : row :=
  match old with
  | None => Row (observed_updated d) (observed_name d) t
  | Some r =>
      if decide (last_updated r < observed_updated d)%Z
      then Row (observed_updated d) (observed_name d) t
      else Row (last_updated r) (mod_name r) t
  end.

Definition change_event (E : env) (d : file_details) : updated_mod :=
  {| id := publishedfileid d;
     name := observed_name d;
     updated := strftime E (observed_updated d);
     url := detail_url (publishedfileid d) |}.

Definition emitted (E : env) (d : file_details) (old : option row) : list updated_mod :=
  match old with
  | Some r => if decide (last_updated r < observed_updated d)%Z then [change_event E d] else []
  | None => []
  end.

(** What recording one result does to the world when nothing raises. *)
Definition reconcile_one (E : env) (d : file_details) (w : world) : world :=
  if decide (succeeded d) then
    World (<[publishedfileid d :=
               reconciled_row (time_time E (clock_reads w)) d (conn w !! publishedfileid d)]>
             (conn w))
          (updated_mods w ++ emitted E d (conn w !! publishedfileid d))
          (S (clock_reads w)) (requests w) (trace w)
  else w.

(** Recording a list of results, when nothing raises. *)
Definition reconcile (E : env) (l : list file_details) (w : world) : world :=
  foldl (λ w d, reconcile_one E d w) w l.

Definition with_io (w : world) (n : nat) (tr : list effect) : world :=
  World (conn w) (updated_mods w) (clock_reads w) n tr.

(** The stored [last_updated] of every id: all that the control flow of the
    cycle reads from the table. *)
Definition versions (db : gmap string row) : gmap string Z := last_updated <$> db.

(** The exception recording a code-1 result raises, given the stored
    [last_updated]: the INSERT or UPDATE of a time SQLite cannot store, the
    rendering of a time the library does not know. *)
Definition details_raises (d : file_details) (stored : option Z) : option exn :=
  match stored with
  | None =>
      if decide (sqlite_integer (observed_updated d)) then None else Some OverflowError
  | Some s =>
      if decide (s < observed_updated d)%Z then
        if decide (sqlite_integer (observed_updated d)) then
          if decide (datetime_range (observed_updated d)) then None else Some ValueError
        else Some OverflowError
      else None
  end.

(** The exception an element of the reply raises, given the stored versions. *)
Definition entry_raises (fd : details_entry) (v : gmap string Z) : option exn :=
  match fd with
  | NoResult => Some (KeyError "result")
  | NoPublishedFileId code =>
      if decide (code ≠ 1%Z) then None else Some (KeyError "publishedfileid")
  | Details d =>
      if decide (result d ≠ 1%Z) then None
      else details_raises d (v !! publishedfileid d)
  end.

(** The stored versions once an element that does not raise is processed. *)
Definition entry_versions (fd : details_entry) (v : gmap string Z) : gmap string Z :=
  match fd with
  | Details d =>
      if decide (succeeded d) then
        <[publishedfileid d :=
            match v !! publishedfileid d with
            | Some s => if decide (s < observed_updated d)%Z then observed_updated d else s
            | None => observed_updated d
            end]> v
      else v
  | _ => v
  end.

(** The first exception raised by the elements of a reply, if any. *)
Fixpoint entries_raise (entries : list details_entry) (v : gmap string Z) : option exn :=
  match entries with
  | [] => None
  | fd :: entries' =>
      match entry_raises fd v with
      | Some e => Some e
      | None => entries_raise entries' (entry_versions fd v)
      end
  end.

Definition entries_versions (entries : list details_entry) (v : gmap string Z)
  : gmap string Z :=
  foldl (λ v fd, entry_versions fd v) v entries.

(** The exception that leaves the cycle, if any, read off the replies and
    the stored versions alone. *)
Fixpoint cycle_raises (E : env) (k : nat) (bs : list (list string)) (v : gmap string Z)
  : option exn :=
  match bs with
  | [] => None
  | b :: bs' =>
      match steam_api E k b with
      | Some {| response := Some {| publishedfiledetails := None |} |} =>
          Some (KeyError "publishedfiledetails")
      | Some {| response := Some {| publishedfiledetails := Some entries |} |} =>
          match entries_raise entries v with
          | Some e => Some e
          | None => cycle_raises E (S k) bs' (entries_versions entries v)
          end
      | _ => cycle_raises E (S k) bs' v
      end
  end.

(** The events of a list that concern one id. *)
Definition events_for (i : string) (evs : list updated_mod) : list updated_mod :=
  filter (λ e, id e = i) evs.

(** The table already knows a version at least as recent as the result. *)
Definition dominated (db : gmap string row) (d : file_details) : Prop :=
  ∃ r, db !! publishedfileid d = Some r ∧ (observed_updated d ≤ last_updated r)%Z.

(** Several cycles in a row, one environment per cycle. *)
Fixpoint run_cycles (Es : list env) (mod_ids : list string) (db : gmap string row)
  : gmap string row :=
  match Es with
  | [] => db
  | E :: Es' => run_cycles Es' mod_ids (cycle_db E mod_ids db)
  end.

(** The entries of an embed that show one mod each: the inline ones. *)
Definition item_entries (fs : list embed_field) : list embed_field :=
  filter (λ f, inline f = true) fs.

(** The entries that summarise the mods not shown. *)
Definition summary_entries (fs : list embed_field) : list embed_field :=
  filter (λ f, field_name f = "➕ Additional Updates"%string) fs.

(** What a row says about the mod, apart from when it was last checked. *)
Definition row_version (r : row) : Z * string := (last_updated r, mod_name r).

(** ** Sample inputs *)

(** The body of a reply that lists the results [ds], each with its two
    indexed keys. *)
Definition reply_of (ds : list file_details) : option mod_data :=
  Some (ModData (Some (ResponseBody (Some (Details <$> ds))))).

(** An environment that answers every request with [ds], reads the clock as
    [1700000000 + k] and prints timestamps in decimal. *)
Definition steady_env (ds : list file_details) : env :=
  {| steam_api := λ _ _, reply_of ds;
     time_time := λ k, (1700000000 + Z.of_nat k)%Z;
     strftime := λ ts, pretty ts |}.

(** An environment whose requests all fail. *)
Definition offline_env : env :=
  {| steam_api := λ _ _, None;
     time_time := λ k, (1700000000 + Z.of_nat k)%Z;
     strftime := λ ts, pretty ts |}.

(** An environment whose first request fails and whose later ones return [ds]. *)
Definition flaky_env (ds : list file_details) : env :=
  {| steam_api := λ k _, match k with 0 => None | _ => reply_of ds end;
     time_time := λ k, (1700000000 + Z.of_nat k)%Z;
     strftime := λ ts, pretty ts |}.



Definition sample_details : file_details :=
  FileDetails 1 "2579252958" (Some "CF"%string) (Some 1700000500%Z).

Definition sample_db (stored : Z) : gmap string row :=
  {[ "2579252958"%string := Row stored "Community Framework" 1600000000 ]}.

Definition sample_env : env := steady_env [sample_details].

Definition sample_ids : list string := ["2579252958"%string].

(** 150 ids, ["0"] to ["149"]: two batches. *)
Definition ids_150 : list string := pretty <$> seq 0 150.

Definition details_7 : file_details :=
  FileDetails 1 "7" None (Some 1700000500%Z).

Definition details_120 : file_details :=
  FileDetails 1 "120" (Some "One-twenty, again"%string) (Some 1700000600%Z).

(** The id ["7"] reported a second time, with a later time. *)
Definition details_7_later : file_details :=
  FileDetails 1 "7" None (Some 1700000900%Z).

(** The id ["7"] reported with a time older than [1650000000]. *)
Definition details_7_older : file_details :=
  FileDetails 1 "7" None (Some 1640000000%Z).

Definition db_7_120 : gmap string row :=
  {[ "7"%string := Row 1650000000 "Seven" 1600000000;
     "120"%string := Row 1650000000 "One-twenty" 1600000000 ]}.

Definition sample_mod (k : nat) : updated_mod :=
  {| id := pretty k; name := "Mod " +:+ pretty k; updated := "2025-10-06 12:00:00";
     url := detail_url (pretty k) |}.

(** The id ["7"] reported twice in one reply, the second time with a later
    time. *)
Definition twice_env : env := steady_env [details_7; details_7_later].

(** The id ["7"] reported with an older time, then with a newer one. *)
Definition older_then_newer_env : env := steady_env [details_7_older; details_7].

(** A time that SQLite stores and [datetime.fromtimestamp] refuses, and one
    that SQLite refuses. *)
Definition details_7_year_33658 : file_details :=
  FileDetails 1 "7" None (Some 1000000000000%Z).

Definition details_7_huge : file_details :=
  FileDetails 1 "7" None (Some (2 ^ 63)%Z).

(** The id ["120"] touched, then ["7"] reported with a time that cannot be
    rendered. *)
Definition touch_then_raise_env : env :=
  steady_env [FileDetails 1 "120" None (Some 1640000000%Z); details_7_year_33658].


(** * Batching *)

Section batching.

Lemma batches_unfold (mod_ids : list string) :
  batches mod_ids =
  (λ k, take batch_size (drop (k * batch_size) mod_ids))
    <$> seq 0 ((length mod_ids + batch_size - 1) / batch_size).
Proof.
  unfold batches, range_step, slice. rewrite <- list_fmap_compose.
  apply list_fmap_ext. intros _ k _. simpl.
  by replace (k * batch_size + batch_size - k * batch_size) with batch_size by lia.
Qed.

Lemma chunks_concat {A} (s : nat) (m : nat) : ∀ l : list A,
  length l ≤ m * s →
  concat ((λ k, take s (drop (k * s) l)) <$> seq 0 m) = l.
Proof.
  induction m as [|m IH]; intros l Hl.
  - simpl in *. destruct l; [done | simpl in Hl; lia].
  - rewrite <- cons_seq, <- fmap_S_seq. rewrite fmap_cons. simpl concat.
    rewrite <- list_fmap_compose.
    rewrite (list_fmap_ext _ (λ k, take s (drop (k * s) (drop s l))) (seq 0 m)).
    + rewrite IH; [apply take_drop |]. rewrite length_drop. lia.
    + intros _ k _. simpl. by rewrite drop_drop.
Qed.

Lemma batch_count_covers (n : nat) :
  n ≤ (n + batch_size - 1) / batch_size * batch_size.
Proof.
  unfold batch_size.
  pose proof (Nat.div_mod_eq (n + 100 - 1) 100) as Hd.
  pose proof (Nat.mod_upper_bound (n + 100 - 1) 100) as Hm. lia.
Qed.

Lemma batches_concat (mod_ids : list string) :
  concat (batches mod_ids) = mod_ids.
Proof.
  rewrite batches_unfold. apply chunks_concat, batch_count_covers.
Qed.



End batching.

Lemma batches_length (mod_ids : list string) :
  length (batches mod_ids) = (length mod_ids + 99) / 100.
Proof.
  rewrite batches_unfold, length_fmap, length_seq. unfold batch_size.
  by replace (length mod_ids + 100 - 1) with (length mod_ids + 99) by lia.
Qed.

Lemma batches_lookup (mod_ids : list string) k b :
  batches mod_ids !! k = Some b →
  b = take 100 (drop (k * 100) mod_ids) ∧ k < (length mod_ids + 99) / 100.
Proof.
  rewrite batches_unfold, list_lookup_fmap. unfold batch_size.
  replace (length mod_ids + 100 - 1) with (length mod_ids + 99) by lia.
  destruct (seq 0 ((length mod_ids + 99) / 100) !! k) as [j|] eqn:Hj; [| done].
  apply lookup_seq in Hj as [-> Hk]. simpl. intros [= <-]. done.
Qed.

Lemma batch_start_in_range (n k : nat) :
  k < (n + 99) / 100 → k * 100 < n.
Proof.
  intros Hk.
  pose proof (Nat.div_mod_eq (n + 99) 100) as Hd.
  pose proof (Nat.mod_upper_bound (n + 99) 100) as Hm. lia.
Qed.

Lemma batch_not_last_full (n k : nat) :
  S k < (n + 99) / 100 → k * 100 + 100 ≤ n.
Proof.
  intros Hk. apply batch_start_in_range in Hk. lia.
Qed.

(** * Recording results when nothing raises *)

Section reconciliation.

Context (E : env).

Lemma reconcile_nil w : reconcile E [] w = w.
Proof. reflexivity. Qed.

Lemma reconcile_cons d l w :
  reconcile E (d :: l) w = reconcile E l (reconcile E [d] w).
Proof. reflexivity. Qed.

Lemma reconcile_app l1 l2 w :
  reconcile E (l1 ++ l2) w = reconcile E l2 (reconcile E l1 w).
Proof. apply foldl_app. Qed.

(** A result with another code is skipped. *)
Lemma reconcile_skipped d w : ¬ succeeded d → reconcile E [d] w = w.
Proof. intros H. unfold reconcile, reconcile_one. simpl. by rewrite decide_False. Qed.

(** What one recorded result does to the world. *)
Lemma reconcile_step d w :
  succeeded d →
  reconcile E [d] w =
  World (<[publishedfileid d :=
             reconciled_row (time_time E (clock_reads w)) d (conn w !! publishedfileid d)]>
           (conn w))
        (updated_mods w ++ emitted E d (conn w !! publishedfileid d))
        (S (clock_reads w)) (requests w) (trace w).
Proof. intros H. unfold reconcile, reconcile_one. simpl. by rewrite decide_True. Qed.

Lemma reconcile_one_with_io d w n tr :
  reconcile E [d] (with_io w n tr) = with_io (reconcile E [d] w) n tr.
Proof.
  destruct (decide (succeeded d)) as [H|H].
  - by rewrite !reconcile_step.
  - by rewrite !reconcile_skipped.
Qed.

Lemma reconcile_with_io l w n tr :
  reconcile E l (with_io w n tr) = with_io (reconcile E l w) n tr.
Proof.
  revert w. induction l as [|d l IH]; intros w; [done |].
  rewrite (reconcile_cons d l), reconcile_one_with_io, IH.
  by rewrite <- reconcile_cons.
Qed.

Lemma with_io_id w : with_io w (requests w) (trace w) = w.
Proof. by destruct w. Qed.

Lemma with_io_twice w n tr n' tr' :
  with_io (with_io w n tr) n' tr' = with_io w n' tr'.
Proof. reflexivity. Qed.

Lemma reconcile_io l w :
  requests (reconcile E l w) = requests w ∧ trace (reconcile E l w) = trace w.
Proof.
  revert w. induction l as [|d l IH]; intros w; [done |].
  rewrite reconcile_cons. destruct (IH (reconcile E [d] w)) as [-> ->].
  destruct (decide (succeeded d)) as [H|H].
  - by rewrite reconcile_step.
  - by rewrite reconcile_skipped.
Qed.

End reconciliation.

(** * Per-id effect of reconciliation *)

Section per_id.

Context (E : env).

Lemma events_for_app i l1 l2 :
  events_for i (l1 ++ l2) = events_for i l1 ++ events_for i l2.
Proof. apply filter_app. Qed.

Lemma events_for_emitted_other i d old :
  publishedfileid d ≠ i → events_for i (emitted E d old) = [].
Proof.
  intros Hne. unfold emitted. destruct old as [r|]; [| done].
  case_decide; [| done]. unfold events_for.
  by rewrite filter_cons_False.
Qed.

Lemma events_for_emitted_self d old :
  events_for (publishedfileid d) (emitted E d old) = emitted E d old.
Proof.
  unfold emitted. destruct old as [r|]; [| done].
  case_decide; [| done]. unfold events_for. by rewrite filter_cons_True.
Qed.

Lemma reconcile_clock_reads l w :
  Forall succeeded l →
  clock_reads (reconcile E l w) = clock_reads w + length l.
Proof.
  intros Hl. revert w. induction Hl as [|d l Hd _ IH]; intros w.
  - rewrite reconcile_nil. simpl. lia.
  - rewrite reconcile_cons, IH, reconcile_step by done. simpl. lia.
Qed.

(** Frame: results for other ids leave the row and the events of [i]. *)
Lemma reconcile_frame i l w :
  i ∉ publishedfileid <$> l →
  conn (reconcile E l w) !! i = conn w !! i ∧
  events_for i (updated_mods (reconcile E l w)) = events_for i (updated_mods w).
Proof.
  revert w. induction l as [|d l IH]; intros w Hi; [done |].
  rewrite fmap_cons, not_elem_of_cons in Hi. destruct Hi as [Hne Hi].
  rewrite reconcile_cons. destruct (IH (reconcile E [d] w) Hi) as [-> ->].
  destruct (decide (succeeded d)) as [H|H].
  - rewrite reconcile_step by done. simpl.
    rewrite lookup_insert_ne by done.
    by rewrite events_for_app, events_for_emitted_other, app_nil_r.
  - by rewrite reconcile_skipped.
Qed.

(** An id observed once in the list: its row and its events afterwards. *)
Lemma reconcile_single pre d post w :
  Forall succeeded pre → succeeded d →
  publishedfileid d ∉ publishedfileid <$> pre ++ post →
  conn (reconcile E (pre ++ d :: post) w) !! publishedfileid d =
    Some (reconciled_row (time_time E (clock_reads w + length pre)) d
            (conn w !! publishedfileid d)) ∧
  events_for (publishedfileid d) (updated_mods (reconcile E (pre ++ d :: post) w)) =
    events_for (publishedfileid d) (updated_mods w) ++
    emitted E d (conn w !! publishedfileid d).
Proof.
  intros Hpre Hd Hfresh.
  rewrite fmap_app, not_elem_of_app in Hfresh. destruct Hfresh as [Hi1 Hi2].
  rewrite reconcile_app, reconcile_cons.
  destruct (reconcile_frame _ post (reconcile E [d] (reconcile E pre w)) Hi2)
    as [-> ->].
  rewrite reconcile_step by done. simpl.
  rewrite lookup_insert_eq, reconcile_clock_reads by done.
  destruct (reconcile_frame _ pre w Hi1) as [-> Hev].
  by rewrite events_for_app, Hev, events_for_emitted_self.
Qed.

(** Monotonicity of [last_updated], one result at a time. *)
Lemma reconcile_one_monotone d w i r :
  conn w !! i = Some r →
  ∃ r', conn (reconcile E [d] w) !! i = Some r' ∧
        (last_updated r ≤ last_updated r')%Z.
Proof.
  intros Hr. destruct (decide (succeeded d)) as [H|H].
  - rewrite reconcile_step by done. simpl.
    destruct (decide (publishedfileid d = i)) as [->|Hne].
    + rewrite lookup_insert_eq, Hr. eexists; split; [done |].
      unfold reconciled_row. case_decide; simpl; lia.
    + rewrite lookup_insert_ne by done. eexists; split; [done | lia].
  - rewrite reconcile_skipped by done. eexists; split; [done | lia].
Qed.

Lemma reconcile_monotone l w i r :
  conn w !! i = Some r →
  ∃ r', conn (reconcile E l w) !! i = Some r' ∧
        (last_updated r ≤ last_updated r')%Z.
Proof.
  revert w r. induction l as [|d l IH]; intros w r Hr.
  - eexists; split; [done | lia].
  - rewrite reconcile_cons.
    destruct (reconcile_one_monotone d w i r Hr) as (r1 & Hr1 & Hle1).
    destruct (IH _ _ Hr1) as (r2 & Hr2 & Hle2).
    eexists; split; [done | lia].
Qed.

Lemma dominated_after_step d w : succeeded d → dominated (conn (reconcile E [d] w)) d.
Proof.
  intros H. rewrite reconcile_step by done. simpl. unfold dominated.
  rewrite lookup_insert_eq. eexists; split; [done |].
  unfold reconciled_row. destruct (conn w !! publishedfileid d) as [r|]; simpl.
  - case_decide; simpl; lia.
  - lia.
Qed.

Lemma dominated_preserved l w d :
  dominated (conn w) d → dominated (conn (reconcile E l w)) d.
Proof.
  intros (r & Hr & Hle).
  destruct (reconcile_monotone l w _ r Hr) as (r' & Hr' & Hle').
  exists r'. split; [done | lia].
Qed.

Lemma reconcile_dominates l w :
  Forall succeeded l → Forall (dominated (conn (reconcile E l w))) l.
Proof.
  intros Hl. revert w. induction Hl as [|d l Hd _ IH]; intros w; [constructor |].
  rewrite reconcile_cons. constructor; [| apply IH].
  by apply dominated_preserved, dominated_after_step.
Qed.

(** Against a table that dominates every result, nothing is emitted. *)
Lemma dominated_silent l w :
  Forall succeeded l → Forall (dominated (conn w)) l →
  updated_mods (reconcile E l w) = updated_mods w.
Proof.
  intros Hl. revert w. induction Hl as [|d l Hd _ IH]; intros w Hdom; [done |].
  apply Forall_cons in Hdom as [Hd0 Hdom].
  rewrite reconcile_cons, IH.
  - rewrite reconcile_step by done. simpl.
    destruct Hd0 as (r & -> & Hle). simpl.
    rewrite decide_False by lia. by rewrite app_nil_r.
  - eapply Forall_impl; [exact Hdom |]. intros d'. apply dominated_preserved.
Qed.

End per_id.

(** * The program against the recording of results *)

Section program.

Context (E : env).

Lemma versions_lookup (db : gmap string row) i :
  versions db !! i = last_updated <$> db !! i.
Proof. unfold versions. apply lookup_fmap. Qed.

(** Recording a result that raises nothing. *)
Lemma record_details_returns d w :
  succeeded d →
  details_raises d (versions (conn w) !! publishedfileid d) = None →
  record_details E d w = (Value tt, reconcile E [d] w).
Proof.
  intros Hd Hok. rewrite reconcile_step by done. rewrite versions_lookup in Hok.
  unfold record_details, bind, select_last_updated. simpl.
  unfold details_raises in Hok. unfold reconciled_row, emitted.
  destruct (conn w !! publishedfileid d) as [r|] eqn:Hr; simpl in *.
  - destruct (decide (last_updated r < observed_updated d)%Z) as [Hlt|Hge].
    + destruct (decide (sqlite_integer (observed_updated d))) as [Hint|]; [| done].
      destruct (decide (datetime_range (observed_updated d))) as [Hdt|]; [| done].
      unfold update_row, fromtimestamp_strftime, append_updated, ret. simpl.
      rewrite !decide_True by done. simpl. do 2 f_equal.
      apply map_eq. intros j. rewrite lookup_alter, lookup_insert.
      case_decide; subst; by rewrite ?Hr.
    + unfold update_last_checked. simpl. rewrite app_nil_r. do 2 f_equal.
      apply map_eq. intros j. rewrite lookup_alter, lookup_insert.
      case_decide; subst; by rewrite ?Hr.
  - destruct (decide (sqlite_integer (observed_updated d))) as [Hint|]; [| done].
    unfold insert_row. simpl. rewrite decide_True by done.
    by rewrite app_nil_r.
Qed.

(** Recording a result that raises: the exception, and no outbound call. *)
Lemma record_details_raises d w e :
  details_raises d (versions (conn w) !! publishedfileid d) = Some e →
  ∃ w', record_details E d w = (Raised e, w') ∧
        requests w' = requests w ∧ trace w' = trace w.
Proof.
  intros Hraise. rewrite versions_lookup in Hraise.
  unfold record_details, bind, select_last_updated. simpl.
  unfold details_raises in Hraise.
  destruct (conn w !! publishedfileid d) as [r|] eqn:Hr; simpl in *.
  - destruct (decide (last_updated r < observed_updated d)%Z) as [Hlt|Hge]; [| done].
    unfold update_row, fromtimestamp_strftime, append_updated, ret, raise. simpl.
    destruct (decide (sqlite_integer (observed_updated d))) as [Hint|Hint].
    + destruct (decide (datetime_range (observed_updated d))) as [Hdt|Hdt]; [done |].
      injection Hraise as <-. simpl. eauto.
    + injection Hraise as <-. simpl. eauto.
  - unfold insert_row. simpl.
    destruct (decide (sqlite_integer (observed_updated d))) as [Hint|Hint]; [done |].
    injection Hraise as <-. simpl. eauto.
Qed.

Lemma code_1_details_cons fd entries :
  code_1_details (fd :: entries) = code_1_details [fd] ++ code_1_details entries.
Proof. unfold code_1_details. simpl. by destruct fd as [d| |]; [case_decide | |]. Qed.

Lemma code_1_details_succeeded entries : Forall succeeded (code_1_details entries).
Proof.
  induction entries as [|fd entries IH]; [constructor |].
  rewrite (code_1_details_cons fd entries). apply Forall_app. split; [| done].
  destruct fd as [d| |]; unfold code_1_details; simpl; [| constructor..].
  case_decide; repeat constructor; done.
Qed.

Lemma reconcile_versions_one d w :
  versions (conn (reconcile E [d] w)) = entry_versions (Details d) (versions (conn w)).
Proof.
  unfold entry_versions. destruct (decide (succeeded d)) as [H|H].
  - rewrite reconcile_step by done. simpl. unfold versions at 1.
    rewrite fmap_insert, versions_lookup. f_equal.
    unfold reconciled_row. destruct (conn w !! publishedfileid d) as [r|]; simpl; [| done].
    by case_decide.
  - by rewrite reconcile_skipped.
Qed.

(** One element of a reply that raises nothing. *)
Lemma process_file_details_returns fd w :
  entry_raises fd (versions (conn w)) = None →
  process_file_details E fd w = (Value tt, reconcile E (code_1_details [fd]) w) ∧
  versions (conn (reconcile E (code_1_details [fd]) w)) =
    entry_versions fd (versions (conn w)).
Proof.
  intros Hok. destruct fd as [d| |code]; simpl in *.
  - unfold code_1_details. simpl. unfold succeeded.
    destruct (decide (result d ≠ 1%Z)) as [Hne|Heq].
    + rewrite !decide_False by done. done.
    + assert (result d = 1%Z) as H1 by lia.
      rewrite decide_True by done.
      split; [by apply record_details_returns |].
      rewrite reconcile_versions_one. unfold entry_versions, succeeded.
      by rewrite decide_True.
  - done.
  - by case_decide.
Qed.

(** One element of a reply that raises. *)
Lemma process_file_details_raises fd w e :
  entry_raises fd (versions (conn w)) = Some e →
  ∃ w', process_file_details E fd w = (Raised e, w') ∧
        requests w' = requests w ∧ trace w' = trace w.
Proof.
  intros Hraise. destruct fd as [d| |code]; simpl in *.
  - destruct (decide (result d ≠ 1%Z)); [done |]. by apply record_details_raises.
  - injection Hraise as <-. unfold raise. eauto.
  - destruct (decide (code ≠ 1%Z)); [done |].
    injection Hraise as <-. unfold raise. eauto.
Qed.

Lemma for_each_cons_value {A} (body : A → M unit) x l w w1 :
  body x w = (Value tt, w1) → for_each body (x :: l) w = for_each body l w1.
Proof. intros H. simpl. unfold bind. by rewrite H. Qed.

Lemma for_each_cons_raised {A} (body : A → M unit) x l w w1 e :
  body x w = (Raised e, w1) → for_each body (x :: l) w = (Raised e, w1).
Proof. intros H. simpl. unfold bind. by rewrite H. Qed.

(** The inner loop, when no element raises. *)
Lemma entries_return entries : ∀ w,
  entries_raise entries (versions (conn w)) = None →
  for_each (process_file_details E) entries w =
    (Value tt, reconcile E (code_1_details entries) w) ∧
  versions (conn (reconcile E (code_1_details entries) w)) =
    entries_versions entries (versions (conn w)).
Proof.
  induction entries as [|fd entries IH]; intros w Hok; [done |].
  simpl in Hok. destruct (entry_raises fd (versions (conn w))) eqn:Hfd; [done |].
  destruct (process_file_details_returns fd w Hfd) as [Hrun Hver].
  rewrite <- Hver in Hok. destruct (IH _ Hok) as [Hrest Hver'].
  rewrite (for_each_cons_value _ _ _ _ _ Hrun), Hrest.
  rewrite (code_1_details_cons fd entries), reconcile_app. split; [done |].
  rewrite Hver', Hver. done.
Qed.

(** The inner loop, when an element raises. *)
Lemma entries_raised entries : ∀ w e,
  entries_raise entries (versions (conn w)) = Some e →
  ∃ w', for_each (process_file_details E) entries w = (Raised e, w') ∧
        requests w' = requests w ∧ trace w' = trace w.
Proof.
  induction entries as [|fd entries IH]; intros w e Hraise; [done |].
  simpl in Hraise. destruct (entry_raises fd (versions (conn w))) as [e'|] eqn:Hfd.
  - injection Hraise as ->.
    destruct (process_file_details_raises fd w e Hfd) as (w' & Hrun & Hio).
    exists w'. by rewrite (for_each_cons_raised _ _ _ _ _ _ Hrun).
  - destruct (process_file_details_returns fd w Hfd) as [Hrun Hver].
    rewrite <- Hver in Hraise. destruct (IH _ _ Hraise) as (w' & Hrest & Hreq & Htr).
    exists w'. rewrite (for_each_cons_value _ _ _ _ _ Hrun), Hrest.
    destruct (reconcile_io E (code_1_details [fd]) w) as [Hreq' Htr'].
    split; [done |]. split; congruence.
Qed.

End program.

(** * The cycle: when it returns, when it raises *)

Section cycle_structure.

Context (E : env).

Lemma process_batch_skipped b w :
  batch_ok (steam_api E (requests w) b) = false →
  process_batch E b w =
    (Value tt, with_io w (S (requests w)) (trace w ++ [SteamPost b])).
Proof.
  intros Hko. unfold process_batch, bind, get_mod_info. simpl.
  by destruct (steam_api E (requests w) b) as [[[body|]]|].
Qed.

Lemma process_batch_malformed b w :
  steam_api E (requests w) b = Some (ModData (Some (ResponseBody None))) →
  process_batch E b w =
    (Raised (KeyError "publishedfiledetails"),
     with_io w (S (requests w)) (trace w ++ [SteamPost b])).
Proof.
  intros Hr. unfold process_batch, bind, get_mod_info. simpl. by rewrite Hr.
Qed.

Lemma process_batch_returns b w entries :
  steam_api E (requests w) b = Some (ModData (Some (ResponseBody (Some entries)))) →
  entries_raise entries (versions (conn w)) = None →
  process_batch E b w =
    (Value tt, with_io (reconcile E (code_1_details entries) w) (S (requests w))
                       (trace w ++ [SteamPost b; Sleep 1])).
Proof.
  intros Hr Hok. unfold process_batch, bind, get_mod_info. simpl. rewrite Hr. simpl.
  change (World (conn w) (updated_mods w) (clock_reads w) (S (requests w))
            (trace w ++ [SteamPost b]))
    with (with_io w (S (requests w)) (trace w ++ [SteamPost b])).
  destruct (entries_return E entries
              (with_io w (S (requests w)) (trace w ++ [SteamPost b])) Hok) as [-> _].
  rewrite reconcile_with_io. unfold sleep, with_io. simpl.
  by rewrite <- app_assoc.
Qed.

Lemma process_batch_raised b w entries e :
  steam_api E (requests w) b = Some (ModData (Some (ResponseBody (Some entries)))) →
  entries_raise entries (versions (conn w)) = Some e →
  ∃ w', process_batch E b w = (Raised e, w') ∧ trace w' = trace w ++ [SteamPost b].
Proof.
  intros Hr Hraise. unfold process_batch, bind, get_mod_info. simpl. rewrite Hr. simpl.
  change (World (conn w) (updated_mods w) (clock_reads w) (S (requests w))
            (trace w ++ [SteamPost b]))
    with (with_io w (S (requests w)) (trace w ++ [SteamPost b])).
  destruct (entries_raised E entries
              (with_io w (S (requests w)) (trace w ++ [SteamPost b])) e Hraise)
    as (w' & -> & _ & Htr).
  exists w'. done.
Qed.

(** The outer loop when nothing raises: the table, the returned list and the
    clock are those of recording the results in order; the trace lists the
    requests and sleeps. *)
Lemma batches_return bs : ∀ w,
  cycle_raises E (requests w) bs (versions (conn w)) = None →
  for_each (process_batch E) bs w =
    (Value tt,
     with_io (reconcile E (cycle_results E (requests w) bs) w)
             (requests w + length bs)
             (trace w ++ cycle_effects E (requests w) bs)).
Proof.
  induction bs as [|b bs IH]; intros w Hok.
  - simpl. rewrite Nat.add_0_r, app_nil_r. by rewrite with_io_id.
  - simpl in Hok. simpl cycle_results. simpl cycle_effects.
    destruct (steam_api E (requests w) b) as [[[[[entries|]]|]]|] eqn:Hr.
    + destruct (entries_raise entries (versions (conn w))) eqn:Hent; [done |].
      pose proof (process_batch_returns b w entries Hr Hent) as Hrun.
      rewrite (for_each_cons_value _ _ _ _ _ Hrun).
      destruct (entries_return E entries w Hent) as [_ Hver].
      rewrite IH; simpl requests; simpl conn; [| by rewrite Hver].
      rewrite reconcile_with_io, with_io_twice, reconcile_app. simpl trace.
      simpl batch_results. simpl batch_ok. cbv iota.
      do 2 f_equal; [simpl; lia |]. by rewrite <- app_assoc.
    + done.
    + assert (process_batch E b w =
              (Value tt, with_io w (S (requests w)) (trace w ++ [SteamPost b]))) as Hrun
        by (apply process_batch_skipped; by rewrite Hr).
      rewrite (for_each_cons_value _ _ _ _ _ Hrun).
      rewrite IH by done. simpl requests. simpl trace.
      rewrite reconcile_with_io, with_io_twice.
      simpl batch_results. simpl batch_ok. cbv iota. rewrite app_nil_l.
      do 2 f_equal; [simpl; lia |]. by rewrite <- app_assoc.
    + assert (process_batch E b w =
              (Value tt, with_io w (S (requests w)) (trace w ++ [SteamPost b]))) as Hrun
        by (apply process_batch_skipped; by rewrite Hr).
      rewrite (for_each_cons_value _ _ _ _ _ Hrun).
      rewrite IH by done. simpl requests. simpl trace.
      rewrite reconcile_with_io, with_io_twice.
      simpl batch_results. simpl batch_ok. cbv iota. rewrite app_nil_l.
      do 2 f_equal; [simpl; lia |]. by rewrite <- app_assoc.
Qed.

Lemma steam_posts_app tr1 tr2 :
  steam_posts (tr1 ++ tr2) = steam_posts tr1 ++ steam_posts tr2.
Proof. apply omap_app. Qed.

Lemma discord_posts_app tr1 tr2 :
  discord_posts (tr1 ++ tr2) = discord_posts tr1 ++ discord_posts tr2.
Proof. apply omap_app. Qed.

(** The outer loop when a reply raises: the requests made are the first
    batches, and Discord has not been called. *)
Lemma batches_raised bs : ∀ w e,
  cycle_raises E (requests w) bs (versions (conn w)) = Some e →
  ∃ w' n, for_each (process_batch E) bs w = (Raised e, w') ∧
          n < length bs ∧
          steam_posts (trace w') = steam_posts (trace w) ++ take (S n) bs ∧
          discord_posts (trace w') = discord_posts (trace w).
Proof.
  induction bs as [|b bs IH]; intros w e Hraise; [done |].
  simpl in Hraise.
  destruct (steam_api E (requests w) b) as [[[[[entries|]]|]]|] eqn:Hr.
  - destruct (entries_raise entries (versions (conn w))) as [e'|] eqn:Hent.
    + injection Hraise as ->.
      destruct (process_batch_raised b w entries e Hr Hent) as (w' & Hrun & Htr).
      exists w', 0. rewrite (for_each_cons_raised _ _ _ _ _ _ Hrun), Htr.
      rewrite steam_posts_app, discord_posts_app. simpl.
      split; [done |]. split; [lia |]. by rewrite app_nil_r.
    + pose proof (process_batch_returns b w entries Hr Hent) as Hrun.
      destruct (entries_return E entries w Hent) as [_ Hver].
      destruct (IH (with_io (reconcile E (code_1_details entries) w) (S (requests w))
                            (trace w ++ [SteamPost b; Sleep 1])) e)
        as (w' & n & Hrest & Hn & Hsp & Hdp); [simpl; by rewrite Hver |].
      exists w', (S n). rewrite (for_each_cons_value _ _ _ _ _ Hrun), Hrest, Hsp, Hdp.
      simpl trace. rewrite steam_posts_app, discord_posts_app. simpl.
      split; [done |]. split; [lia |]. by rewrite <- app_assoc, app_nil_r.
  - injection Hraise as <-. exists (with_io w (S (requests w)) (trace w ++ [SteamPost b])), 0.
    rewrite (for_each_cons_raised _ _ _ _ _ _ (process_batch_malformed b w Hr)).
    simpl trace. rewrite steam_posts_app, discord_posts_app. simpl.
    split; [done |]. split; [lia |]. by rewrite app_nil_r.
  - assert (process_batch E b w =
            (Value tt, with_io w (S (requests w)) (trace w ++ [SteamPost b]))) as Hrun
      by (apply process_batch_skipped; by rewrite Hr).
    destruct (IH (with_io w (S (requests w)) (trace w ++ [SteamPost b])) e Hraise)
      as (w' & n & Hrest & Hn & Hsp & Hdp).
    exists w', (S n). rewrite (for_each_cons_value _ _ _ _ _ Hrun), Hrest, Hsp, Hdp.
    simpl trace. rewrite steam_posts_app, discord_posts_app. simpl.
    split; [done |]. split; [lia |]. by rewrite <- app_assoc, app_nil_r.
  - assert (process_batch E b w =
            (Value tt, with_io w (S (requests w)) (trace w ++ [SteamPost b]))) as Hrun
      by (apply process_batch_skipped; by rewrite Hr).
    destruct (IH (with_io w (S (requests w)) (trace w ++ [SteamPost b])) e Hraise)
      as (w' & n & Hrest & Hn & Hsp & Hdp).
    exists w', (S n). rewrite (for_each_cons_value _ _ _ _ _ Hrun), Hrest, Hsp, Hdp.
    simpl trace. rewrite steam_posts_app, discord_posts_app. simpl.
    split; [done |]. split; [lia |]. by rewrite <- app_assoc, app_nil_r.
Qed.

End cycle_structure.

(** * What a cycle leaves *)

Lemma cycle_outcome E mod_ids db :
  match cycle_raises E 0 (batches mod_ids) (versions db) with
  | None =>
      check_for_updates E mod_ids db =
      Returns (updated_mods (reconcile E (observations E mod_ids) (initial_world db)))
              (conn (reconcile E (observations E mod_ids) (initial_world db)))
              (cycle_effects E 0 (batches mod_ids))
  | Some e =>
      ∃ tr n, check_for_updates E mod_ids db = Raises e db tr ∧
              n < length (batches mod_ids) ∧
              steam_posts tr = take (S n) (batches mod_ids) ∧
              discord_posts tr = []
  end.
Proof.
  unfold check_for_updates, check_for_updates_prog.
  destruct (cycle_raises E 0 (batches mod_ids) (versions db)) as [e|] eqn:Hc.
  - destruct (batches_raised E (batches mod_ids) (initial_world db) e Hc)
      as (w' & n & -> & Hn & Hsp & Hdp).
    exists (trace w'), n. done.
  - by rewrite (batches_return E (batches mod_ids) (initial_world db) Hc).
Qed.

(** The exception that leaves the cycle depends on the replies and on the
    stored versions only. *)
Lemma cycle_exception_eq E mod_ids db :
  cycle_exception E mod_ids db = cycle_raises E 0 (batches mod_ids) (versions db).
Proof.
  unfold cycle_exception. pose proof (cycle_outcome E mod_ids db) as H.
  destruct (cycle_raises E 0 (batches mod_ids) (versions db)) as [e|].
  - destruct H as (tr & n & -> & _). done.
  - by rewrite H.
Qed.

(** A cycle that returns. *)
Lemma cycle_returns E mod_ids db :
  cycle_exception E mod_ids db = None →
  cycle_events E mod_ids db =
    updated_mods (reconcile E (observations E mod_ids) (initial_world db)) ∧
  cycle_db E mod_ids db =
    conn (reconcile E (observations E mod_ids) (initial_world db)) ∧
  cycle_trace E mod_ids db = cycle_effects E 0 (batches mod_ids).
Proof.
  rewrite cycle_exception_eq. intros Hc.
  pose proof (cycle_outcome E mod_ids db) as H. rewrite Hc in H.
  unfold cycle_events, cycle_db, cycle_trace. by rewrite H.
Qed.

(** A cycle that raises. *)
Lemma cycle_raised E mod_ids db e :
  cycle_exception E mod_ids db = Some e →
  cycle_events E mod_ids db = [] ∧
  cycle_db E mod_ids db = db ∧
  discord_posts (cycle_trace E mod_ids db) = [] ∧
  ∃ n, n < length (batches mod_ids) ∧
       steam_posts (cycle_trace E mod_ids db) = take (S n) (batches mod_ids).
Proof.
  rewrite cycle_exception_eq. intros Hc.
  pose proof (cycle_outcome E mod_ids db) as H. rewrite Hc in H.
  destruct H as (tr & n & H & Hn & Hsp & Hdp).
  unfold cycle_events, cycle_db, cycle_trace. rewrite H.
  repeat split; [done | by exists n].
Qed.

Lemma cycle_results_ext E1 E2 :
  (∀ k b, steam_api E2 k b = steam_api E1 k b) →
  ∀ bs k, cycle_results E2 k bs = cycle_results E1 k bs.
Proof.
  intros Hsame. induction bs as [|b bs IH]; intros k; [done |].
  simpl. by rewrite Hsame, IH.
Qed.

Lemma cycle_raises_ext E1 E2 :
  (∀ k b, steam_api E2 k b = steam_api E1 k b) →
  ∀ bs k v, cycle_raises E2 k bs v = cycle_raises E1 k bs v.
Proof.
  intros Hsame. induction bs as [|b bs IH]; intros k v; [done |].
  simpl. rewrite Hsame.
  destruct (steam_api E1 k b) as [[[[[entries|]]|]]|]; try done.
  destruct (entries_raise entries v); done.
Qed.

(** With the same replies on the same table, two cycles raise the same
    exception or none, whatever their clocks. *)
Lemma cycle_exception_ext E1 E2 mod_ids db :
  (∀ k b, steam_api E2 k b = steam_api E1 k b) →
  cycle_exception E2 mod_ids db = cycle_exception E1 mod_ids db.
Proof.
  intros Hsame. rewrite !cycle_exception_eq. by apply cycle_raises_ext.
Qed.

Lemma observations_ext E1 E2 mod_ids :
  (∀ k b, steam_api E2 k b = steam_api E1 k b) →
  observations E2 mod_ids = observations E1 mod_ids.
Proof. intros Hsame. unfold observations. by apply cycle_results_ext. Qed.

Lemma cycle_results_succeeded E k bs :
  Forall succeeded (cycle_results E k bs).
Proof.
  revert k. induction bs as [|b bs IH]; intros k; simpl; [constructor |].
  apply Forall_app. split; [| apply IH].
  unfold batch_results. destruct (steam_api E k b) as [[[[[entries|]]|]]|];
    try constructor.
  apply code_1_details_succeeded.
Qed.

Lemma observations_succeeded E mod_ids : Forall succeeded (observations E mod_ids).
Proof. apply cycle_results_succeeded. Qed.

Lemma steam_posts_cycle_effects E k bs : steam_posts (cycle_effects E k bs) = bs.
Proof.
  revert k. induction bs as [|b bs IH]; intros k; [done |].
  simpl. unfold steam_posts in *. simpl. f_equal.
  rewrite omap_app, IH. by destruct (batch_ok _).
Qed.

Lemma discord_posts_cycle_effects E k bs : discord_posts (cycle_effects E k bs) = [].
Proof.
  revert k. induction bs as [|b bs IH]; intros k; [done |].
  simpl. unfold discord_posts in *. simpl. rewrite omap_app, IH.
  by destruct (batch_ok _).
Qed.

Lemma sleeps_cycle_effects E k bs :
  sleeps (cycle_effects E k bs) = replicate (ok_batches E k bs) 1%Z.
Proof.
  revert k. induction bs as [|b bs IH]; intros k; [done |].
  simpl. unfold sleeps in *. simpl. rewrite omap_app, IH.
  by destruct (batch_ok _).
Qed.

(** A cycle that returns sleeps once per batch whose reply passed the guard
    of line 91, and only then. *)
Lemma sleeps_cycle_trace E mod_ids db :
  cycle_exception E mod_ids db = None →
  sleeps (cycle_trace E mod_ids db) = replicate (ok_batches E 0 (batches mod_ids)) 1%Z.
Proof.
  intros Hc. destruct (cycle_returns E mod_ids db Hc) as (_ & _ & ->).
  apply sleeps_cycle_effects.
Qed.

(** No cycle calls Discord. *)
Lemma cycle_trace_no_discord E mod_ids db :
  discord_posts (cycle_trace E mod_ids db) = [].
Proof.
  destruct (cycle_exception E mod_ids db) as [e|] eqn:Hc.
  - by destruct (cycle_raised E mod_ids db e Hc) as (_ & _ & -> & _).
  - destruct (cycle_returns E mod_ids db Hc) as (_ & _ & ->).
    apply discord_posts_cycle_effects.
Qed.

(** The requests of a cycle are the first batches, in order. *)
Lemma cycle_trace_prefix E mod_ids db :
  ∃ n, steam_posts (cycle_trace E mod_ids db) = take n (batches mod_ids).
Proof.
  destruct (cycle_exception E mod_ids db) as [e|] eqn:Hc.
  - destruct (cycle_raised E mod_ids db e Hc) as (_ & _ & _ & n & _ & ->). eauto.
  - destruct (cycle_returns E mod_ids db Hc) as (_ & _ & ->).
    exists (length (batches mod_ids)).
    by rewrite steam_posts_cycle_effects, firstn_all.
Qed.

Lemma cycle_db_monotone E mod_ids db i r :
  db !! i = Some r →
  ∃ r', cycle_db E mod_ids db !! i = Some r' ∧
        (last_updated r ≤ last_updated r')%Z.
Proof.
  intros Hr. destruct (cycle_exception E mod_ids db) as [e|] eqn:Hc.
  - destruct (cycle_raised E mod_ids db e Hc) as (_ & -> & _).
    exists r. split; [done | lia].
  - destruct (cycle_returns E mod_ids db Hc) as (_ & -> & _).
    by apply (reconcile_monotone E _ (initial_world db)).
Qed.

Lemma cycle_dominated_preserved E mod_ids db d :
  dominated db d → dominated (cycle_db E mod_ids db) d.
Proof.
  intros (r & Hr & Hle).
  destruct (cycle_db_monotone E mod_ids db _ r Hr) as (r' & Hr' & Hle').
  exists r'. split; [done | lia].
Qed.

Lemma cycle_db_dominates E mod_ids db :
  cycle_exception E mod_ids db = None →
  Forall (dominated (cycle_db E mod_ids db)) (observations E mod_ids).
Proof.
  intros Hc. destruct (cycle_returns E mod_ids db Hc) as (_ & -> & _).
  apply reconcile_dominates, observations_succeeded.
Qed.

Lemma cycle_silent_when_dominated E mod_ids db :
  Forall (dominated db) (observations E mod_ids) →
  cycle_events E mod_ids db = [].
Proof.
  intros Hdom. destruct (cycle_exception E mod_ids db) as [e|] eqn:Hc.
  - by destruct (cycle_raised E mod_ids db e Hc) as (-> & _).
  - destruct (cycle_returns E mod_ids db Hc) as (-> & _).
    by rewrite dominated_silent; [| apply observations_succeeded |].
Qed.

(** In a cycle that returns, an id reported once: its row and its events. *)
Lemma cycle_single E mod_ids db pre d post :
  cycle_exception E mod_ids db = None →
  observations E mod_ids = pre ++ d :: post →
  publishedfileid d ∉ publishedfileid <$> pre ++ post →
  cycle_db E mod_ids db !! publishedfileid d =
    Some (reconciled_row (time_time E (length pre)) d (db !! publishedfileid d)) ∧
  events_for (publishedfileid d) (cycle_events E mod_ids db) =
    emitted E d (db !! publishedfileid d).
Proof.
  intros Hc Hobs Hfresh.
  pose proof (observations_succeeded E mod_ids) as Hok.
  rewrite Hobs in Hok. apply Forall_app in Hok as [Hpre Hpost].
  apply Forall_cons in Hpost as [Hd _].
  destruct (cycle_returns E mod_ids db Hc) as (-> & -> & _). rewrite Hobs.
  destruct (reconcile_single E pre d post (initial_world db) Hpre Hd Hfresh)
    as [-> ->].
  done.
Qed.

(** * The change-detection properties *)

(** C1, as stated, fails twice over. An id reported twice with increasing
    times gets two events, and the row ends with the later time. A time that
    [datetime.fromtimestamp] refuses makes the cycle raise after the UPDATE
    and before the commit: no event is returned and the row is the old one. *)
Lemma changed_mod_counterexample :
  (details_7 ∈ observations twice_env ["7"%string] ∧
   db_7_120 !! "7"%string = Some (Row 1650000000 "Seven" 1600000000) ∧
   (1650000000 < observed_updated details_7)%Z ∧
   events_for "7" (cycle_events twice_env ["7"%string] db_7_120) =
     [change_event twice_env details_7; change_event twice_env details_7_later] ∧
   cycle_db twice_env ["7"%string] db_7_120 !! "7"%string =
     Some (Row 1700000900 "Mod 7" 1700000001)) ∧
  (details_7_year_33658 ∈ observations (steady_env [details_7_year_33658]) ["7"%string] ∧
   (1650000000 < observed_updated details_7_year_33658)%Z ∧
   cycle_exception (steady_env [details_7_year_33658]) ["7"%string] db_7_120 =
     Some ValueError ∧
   events_for "7" (cycle_events (steady_env [details_7_year_33658]) ["7"%string] db_7_120)
     = [] ∧
   cycle_db (steady_env [details_7_year_33658]) ["7"%string] db_7_120 !! "7"%string =
     Some (Row 1650000000 "Seven" 1600000000)).
Proof.
  split.
  - split; [apply list_elem_of_here |]. split; [reflexivity |].
    split; [unfold observed_updated, details_7; simpl; lia |].
    split; vm_compute; reflexivity.
  - split; [apply list_elem_of_here |].
    split; [unfold observed_updated, details_7_year_33658; simpl; lia |].
    repeat split; vm_compute; reflexivity.
Qed.

(** C1, amended: in a cycle that returns, an id reported once (with code 1)
    whose stored [last_updated] is strictly below the observed one gets
    exactly one change event, carrying the observed name and time and the
    Workshop URL of the id, and its row is overwritten with the observed
    [last_updated], the observed name and the time read when it was
    processed. *)
Theorem changed_mod_one_event E mod_ids db pre d post r :
  cycle_exception E mod_ids db = None →
  observations E mod_ids = pre ++ d :: post →
  publishedfileid d ∉ publishedfileid <$> pre ++ post →
  db !! publishedfileid d = Some r →
  (last_updated r < observed_updated d)%Z →
  events_for (publishedfileid d) (cycle_events E mod_ids db) =
    [ {| id := publishedfileid d;
         name := observed_name d;
         updated := strftime E (observed_updated d);
         url := detail_url (publishedfileid d) |} ] ∧
  cycle_db E mod_ids db !! publishedfileid d =
    Some (Row (observed_updated d) (observed_name d) (time_time E (length pre))).
Proof.
  intros Hc Hobs Hfresh Hr Hlt.
  destruct (cycle_single E mod_ids db pre d post Hc Hobs Hfresh) as [-> ->].
  rewrite Hr. unfold emitted, reconciled_row.
  by rewrite !decide_True by done.
Qed.

Lemma changed_mod_one_event_witness :
  events_for "2579252958" (cycle_events sample_env sample_ids (sample_db 1650000000)) =
    [ {| id := "2579252958"; name := "CF"; updated := "1700000500";
         url := "https://steamcommunity.com/sharedfiles/filedetails/?id=2579252958" |} ] ∧
  cycle_db sample_env sample_ids (sample_db 1650000000) !! "2579252958"%string =
    Some (Row 1700000500 "CF" 1700000000).
Proof.
  apply (changed_mod_one_event sample_env sample_ids (sample_db 1650000000)
           [] sample_details [] (Row 1650000000 "Community Framework" 1600000000)).
  - vm_compute. reflexivity.
  - reflexivity.
  - simpl. apply not_elem_of_nil.
  - reflexivity.
  - unfold observed_updated, sample_details. simpl. lia.
Defined.

(** C2, as stated, fails twice over. A new id reported twice with increasing
    times is created and then changed in the same cycle: an event is returned
    for it. A time that SQLite cannot store makes the INSERT raise: the cycle
    commits nothing and the id has no row. *)
Lemma new_mod_counterexample :
  (details_7 ∈ observations twice_env ["7"%string] ∧
   (∅ : gmap string row) !! "7"%string = None ∧
   events_for "7" (cycle_events twice_env ["7"%string] ∅) =
     [change_event twice_env details_7_later]) ∧
  (details_7_huge ∈ observations (steady_env [details_7_huge]) ["7"%string] ∧
   cycle_exception (steady_env [details_7_huge]) ["7"%string] ∅ = Some OverflowError ∧
   cycle_db (steady_env [details_7_huge]) ["7"%string] ∅ !! "7"%string = None).
Proof.
  split.
  - split; [apply list_elem_of_here |]. split; [reflexivity |].
    vm_compute. reflexivity.
  - split; [apply list_elem_of_here |]. split; vm_compute; reflexivity.
Qed.

(** C2, amended: in a cycle that returns, an id reported once (with code 1)
    that has no row gets one, holding the observed [last_updated], the
    observed name and the time read when it was processed, and no change
    event. *)
Theorem new_mod_recorded_silently E mod_ids db pre d post :
  cycle_exception E mod_ids db = None →
  observations E mod_ids = pre ++ d :: post →
  publishedfileid d ∉ publishedfileid <$> pre ++ post →
  db !! publishedfileid d = None →
  cycle_db E mod_ids db !! publishedfileid d =
    Some (Row (observed_updated d) (observed_name d) (time_time E (length pre))) ∧
  events_for (publishedfileid d) (cycle_events E mod_ids db) = [].
Proof.
  intros Hc Hobs Hfresh Hr.
  destruct (cycle_single E mod_ids db pre d post Hc Hobs Hfresh) as [-> ->].
  by rewrite Hr.
Qed.

Lemma new_mod_recorded_silently_witness :
  cycle_db sample_env sample_ids ∅ !! "2579252958"%string =
    Some (Row 1700000500 "CF" 1700000000) ∧
  events_for "2579252958" (cycle_events sample_env sample_ids ∅) = [].
Proof.
  apply (new_mod_recorded_silently sample_env sample_ids ∅ [] sample_details []).
  - vm_compute. reflexivity.
  - reflexivity.
  - simpl. apply not_elem_of_nil.
  - reflexivity.
Defined.

(** C3, as stated, fails twice over. An id reported with an older time and
    then with a newer one gets an event and a new [last_updated], although
    its first result was not newer than the row. A result of the same cycle
    that raises loses the touch: [last_checked] is not advanced. *)
Lemma unchanged_mod_counterexample :
  (details_7_older ∈ observations older_then_newer_env ["7"%string] ∧
   db_7_120 !! "7"%string = Some (Row 1650000000 "Seven" 1600000000) ∧
   (observed_updated details_7_older ≤ 1650000000)%Z ∧
   events_for "7" (cycle_events older_then_newer_env ["7"%string] db_7_120) =
     [change_event older_then_newer_env details_7] ∧
   cycle_db older_then_newer_env ["7"%string] db_7_120 !! "7"%string =
     Some (Row 1700000500 "Mod 7" 1700000001)) ∧
  (FileDetails 1 "120" None (Some 1640000000%Z)
     ∈ observations touch_then_raise_env ["120"%string; "7"%string] ∧
   cycle_exception touch_then_raise_env ["120"%string; "7"%string] db_7_120 =
     Some ValueError ∧
   cycle_db touch_then_raise_env ["120"%string; "7"%string] db_7_120 !! "120"%string =
     Some (Row 1650000000 "One-twenty" 1600000000)).
Proof.
  split.
  - split; [apply list_elem_of_here |]. split; [reflexivity |].
    split; [unfold observed_updated, details_7_older; simpl; lia |].
    split; vm_compute; reflexivity.
  - split; [apply list_elem_of_here |]. split; vm_compute; reflexivity.
Qed.

(** C3, amended: in a cycle that returns, an id reported once (with code 1)
    whose observed [last_updated] does not exceed the stored one gets no
    change event; its row keeps [last_updated] and the name, and
    [last_checked] becomes the time read when it was processed. *)
Theorem unchanged_mod_only_touched E mod_ids db pre d post r :
  cycle_exception E mod_ids db = None →
  observations E mod_ids = pre ++ d :: post →
  publishedfileid d ∉ publishedfileid <$> pre ++ post →
  db !! publishedfileid d = Some r →
  (observed_updated d ≤ last_updated r)%Z →
  events_for (publishedfileid d) (cycle_events E mod_ids db) = [] ∧
  cycle_db E mod_ids db !! publishedfileid d =
    Some (Row (last_updated r) (mod_name r) (time_time E (length pre))).
Proof.
  intros Hc Hobs Hfresh Hr Hle.
  destruct (cycle_single E mod_ids db pre d post Hc Hobs Hfresh) as [-> ->].
  rewrite Hr. unfold emitted, reconciled_row.
  by rewrite !decide_False by lia.
Qed.

Lemma unchanged_mod_only_touched_witness :
  events_for "2579252958" (cycle_events sample_env sample_ids (sample_db 1800000000)) = [] ∧
  cycle_db sample_env sample_ids (sample_db 1800000000) !! "2579252958"%string =
    Some (Row 1800000000 "Community Framework" 1700000000).
Proof.
  apply (unchanged_mod_only_touched sample_env sample_ids (sample_db 1800000000)
           [] sample_details [] (Row 1800000000 "Community Framework" 1600000000)).
  - vm_compute. reflexivity.
  - reflexivity.
  - simpl. apply not_elem_of_nil.
  - reflexivity.
  - unfold observed_updated, sample_details. simpl. lia.
Defined.









(** C9: over any number of cycles, whatever Steam replies, a row that exists
    still exists afterwards and its [last_updated] is not smaller. *)
Theorem last_updated_never_decreases Es mod_ids db i r :
  db !! i = Some r →
  ∃ r', run_cycles Es mod_ids db !! i = Some r' ∧
        (last_updated r ≤ last_updated r')%Z.
Proof.
  revert db r. induction Es as [|E Es IH]; intros db r Hr; simpl.
  - exists r. split; [done | lia].
  - destruct (cycle_db_monotone E mod_ids db i r Hr) as (r1 & Hr1 & Hle1).
    destruct (IH _ _ Hr1) as (r2 & Hr2 & Hle2).
    exists r2. split; [done | lia].
Qed.

Lemma last_updated_never_decreases_witness :
  ∃ r', run_cycles [sample_env; offline_env] sample_ids (sample_db 1800000000)
          !! "2579252958"%string = Some r' ∧
        (1800000000 ≤ last_updated r')%Z.
Proof.
  apply (last_updated_never_decreases [sample_env; offline_env] sample_ids
           (sample_db 1800000000) "2579252958"
           (Row 1800000000 "Community Framework" 1600000000)).
  reflexivity.
Defined.




Lemma batches_position (mod_ids : list string) p :
  mod_ids !! p = batches mod_ids !! (p / 100) ≫= (λ b, b !! (p `mod` 100)).
Proof.
  pose proof (Nat.div_mod_eq p 100) as Hp.
  pose proof (Nat.mod_upper_bound p 100) as Hm.
  generalize dependent (p `mod` 100). generalize dependent (p / 100).
  intros k j Hp Hj.
  destruct (batches mod_ids !! k) as [b|] eqn:Hb; simpl.
  - apply batches_lookup in Hb as [-> _].
    rewrite lookup_take_lt by lia. rewrite lookup_drop. f_equal. lia.
  - apply lookup_ge_None in Hb. rewrite batches_length in Hb.
    apply lookup_ge_None.
    pose proof (Nat.div_mod_eq (length mod_ids + 99) 100) as Hd.
    pose proof (Nat.mod_upper_bound (length mod_ids + 99) 100) as Hm'. lia.
Qed.

(** C10: the batches, concatenated in order, are the tracked ids; the id at
    position p is in batch p // 100, at position p % 100, and nowhere else. *)
Theorem batches_lossless (mod_ids : list string) :
  concat (batches mod_ids) = mod_ids ∧
  ∀ p, mod_ids !! p = batches mod_ids !! (p / 100) ≫= (λ b, b !! (p `mod` 100)).
Proof. split; [apply batches_concat | apply batches_position]. Qed.

(** * Notification *)

Lemma item_entries_mod_fields (l : list updated_mod) :
  item_entries (mod_field <$> l) = mod_field <$> l.
Proof.
  unfold item_entries. induction l as [|m l IH]; [done |].
  rewrite fmap_cons, filter_cons_True by done. by rewrite IH.
Qed.

Lemma summary_entries_mod_fields (l : list updated_mod) :
  summary_entries (mod_field <$> l) = [].
Proof.
  unfold summary_entries. induction l as [|m l IH]; [done |].
  rewrite fmap_cons, filter_cons_False; [done |]. simpl. discriminate.
Qed.

Lemma embed_fields_items (mods : list updated_mod) :
  item_entries (embed_fields mods) = mod_field <$> take 10 mods.
Proof.
  unfold embed_fields, item_entries. case_decide.
  - rewrite !filter_app, <- app_assoc. fold (item_entries (mod_field <$> take 10 mods)).
    rewrite item_entries_mod_fields.
    rewrite !filter_cons_False, filter_nil by (simpl; discriminate).
    by rewrite !app_nil_r.
  - rewrite filter_app. fold (item_entries (mod_field <$> take 10 mods)).
    rewrite item_entries_mod_fields.
    rewrite filter_cons_False, filter_nil by (simpl; discriminate).
    by rewrite app_nil_r.
Qed.

Lemma embed_fields_summary (mods : list updated_mod) :
  summary_entries (embed_fields mods) =
  if decide (10 < length mods) then [additional_field (length mods - 10)] else [].
Proof.
  unfold embed_fields, summary_entries. case_decide.
  - rewrite !filter_app. fold (summary_entries (mod_field <$> take 10 mods)).
    rewrite summary_entries_mod_fields, app_nil_l.
    rewrite filter_cons_True by done.
    by rewrite filter_cons_False, !filter_nil by (simpl; discriminate).
  - rewrite filter_app. fold (summary_entries (mod_field <$> take 10 mods)).
    rewrite summary_entries_mod_fields, app_nil_l.
    by rewrite filter_cons_False, !filter_nil by (simpl; discriminate).
Qed.

(** C7: no event, no message; 1 to 10 events, one message with one entry per
    event, showing its name, time, id and link, and no summary entry; more
    than 10, one message with the entries of the first 10 events and one
    summary entry that reads "And N more mods were updated." for the N = n - 10
    events left out. *)
Theorem notification_capping (now_iso : string) (mods : list updated_mod) :
  (length mods = 0 → send_discord_notification now_iso mods = []) ∧
  (1 ≤ length mods ≤ 10 →
   ∃ p e, send_discord_notification now_iso mods = [DiscordPost p] ∧
          embeds p = [e] ∧
          item_entries (fields e) =
            (λ m, {| field_name := "📦 " +:+ name m;
                     field_value := "**Updated:** " +:+ updated m +:+ nl +:+
                                    "**ID:** `" +:+ id m +:+ "`" +:+ nl +:+
                                    "[View on Workshop](" +:+ url m +:+ ")";
                     inline := true |}) <$> mods ∧
          length (item_entries (fields e)) = length mods ∧
          summary_entries (fields e) = []) ∧
  (10 < length mods →
   ∃ p e, send_discord_notification now_iso mods = [DiscordPost p] ∧
          embeds p = [e] ∧
          item_entries (fields e) =
            (λ m, {| field_name := "📦 " +:+ name m;
                     field_value := "**Updated:** " +:+ updated m +:+ nl +:+
                                    "**ID:** `" +:+ id m +:+ "`" +:+ nl +:+
                                    "[View on Workshop](" +:+ url m +:+ ")";
                     inline := true |}) <$> take 10 mods ∧
          length (item_entries (fields e)) = 10 ∧
          summary_entries (fields e) =
            [ {| field_name := "➕ Additional Updates";
                 field_value := "And " +:+ pretty (length mods - 10) +:+
                                " more mods were updated.";
                 inline := false |} ]).
Proof.
  split; [| split].
  - intros Hn. by destruct mods.
  - intros [Hlo Hhi]. destruct mods as [|m mods]; [simpl in Hlo; lia |].
    eexists _, _. split; [reflexivity |]. split; [reflexivity |]. simpl fields.
    rewrite embed_fields_items, embed_fields_summary.
    rewrite take_ge by lia. rewrite length_fmap.
    by rewrite decide_False by lia.
  - intros Hn. destruct mods as [|m mods]; [simpl in Hn; lia |].
    eexists _, _. split; [reflexivity |]. split; [reflexivity |]. simpl fields.
    rewrite embed_fields_items, embed_fields_summary.
    rewrite length_fmap, length_take.
    rewrite decide_True by lia. split; [done |]. split; [lia | done].
Qed.

Lemma notification_capping_witness :
  send_discord_notification "2025-10-06T12:00:00" [] = [] ∧
  (∃ p e, send_discord_notification "2025-10-06T12:00:00" (sample_mod <$> seq 0 3)
            = [DiscordPost p] ∧
          embeds p = [e] ∧
          item_entries (fields e) =
            (λ m, {| field_name := "📦 " +:+ name m;
                     field_value := "**Updated:** " +:+ updated m +:+ nl +:+
                                    "**ID:** `" +:+ id m +:+ "`" +:+ nl +:+
                                    "[View on Workshop](" +:+ url m +:+ ")";
                     inline := true |}) <$> (sample_mod <$> seq 0 3) ∧
          length (item_entries (fields e)) = 3 ∧
          summary_entries (fields e) = []) ∧
  (∃ p e, send_discord_notification "2025-10-06T12:00:00" (sample_mod <$> seq 0 15)
            = [DiscordPost p] ∧
          embeds p = [e] ∧
          item_entries (fields e) =
            (λ m, {| field_name := "📦 " +:+ name m;
                     field_value := "**Updated:** " +:+ updated m +:+ nl +:+
                                    "**ID:** `" +:+ id m +:+ "`" +:+ nl +:+
                                    "[View on Workshop](" +:+ url m +:+ ")";
                     inline := true |}) <$> take 10 (sample_mod <$> seq 0 15) ∧
          length (item_entries (fields e)) = 10 ∧
          summary_entries (fields e) =
            [ {| field_name := "➕ Additional Updates";
                 field_value := "And 5 more mods were updated.";
                 inline := false |} ]).
Proof.
  split; [| split].
  - apply (notification_capping "2025-10-06T12:00:00" []). reflexivity.
  - destruct (notification_capping "2025-10-06T12:00:00" (sample_mod <$> seq 0 3))
      as (_ & Hfew & _).
    apply Hfew. simpl. lia.
  - destruct (notification_capping "2025-10-06T12:00:00" (sample_mod <$> seq 0 15))
      as (_ & _ & Hmany).
    apply Hmany. simpl. lia.
Defined.

(** * The delay between batches *)

(** C8 (fails on the code): with 150 ids and a first request that fails, the
    second request follows the first with no sleep in between; the only sleep
    of the cycle comes after the second, successful batch. With every request
    failing the cycle does not sleep at all. *)
Theorem failed_batch_skips_delay :
  cycle_trace (flaky_env [sample_details]) ids_150 ∅ =
    [SteamPost (take 100 ids_150); SteamPost (drop 100 ids_150); Sleep 1] ∧
  cycle_trace offline_env ids_150 ∅ =
    [SteamPost (take 100 ids_150); SteamPost (drop 100 ids_150)] ∧
  cycle_trace offline_env configured_mod_ids ∅ = [SteamPost configured_mod_ids].
Proof. repeat split; vm_compute; reflexivity. Qed.

(** * Further properties of the batches *)

(** X1: the k-th batch is the slice of the id list from 100k to 100k+100;
    it is never empty, and every batch but the last holds exactly 100 ids. *)
Theorem batch_shape (mod_ids : list string) k b :
  batches mod_ids !! k = Some b →
  b = take 100 (drop (k * 100) mod_ids) ∧
  1 ≤ length b ≤ 100 ∧
  (S k < length (batches mod_ids) → length b = 100).
Proof.
  intros Hb. apply batches_lookup in Hb as [-> Hk].
  pose proof (batch_start_in_range _ _ Hk) as Hlt.
  split; [done |]. rewrite length_take, length_drop. split; [lia |].
  rewrite batches_length. intros Hk'. apply batch_not_last_full in Hk'. lia.
Qed.

Lemma batch_shape_witness :
  drop 100 ids_150 = take 100 (drop (1 * 100) ids_150) ∧
  1 ≤ length (drop 100 ids_150) ≤ 100 ∧
  (2 < length (batches ids_150) → length (drop 100 ids_150) = 100).
Proof.
  apply (batch_shape ids_150 1 (drop 100 ids_150)).
  vm_compute. reflexivity.
Defined.

(** X2: a cycle over n tracked ids posts at most ceil(n/100) requests, and
    exactly that many when it returns; with no tracked id it posts none,
    returns no event and leaves the table as it was. *)
Theorem request_count E mod_ids db :
  length (steam_posts (cycle_trace E mod_ids db)) ≤ (length mod_ids + 99) / 100 ∧
  (cycle_exception E mod_ids db = None →
   length (steam_posts (cycle_trace E mod_ids db)) = (length mod_ids + 99) / 100) ∧
  check_for_updates E [] db = Returns [] db [].
Proof.
  split; [| split].
  - destruct (cycle_trace_prefix E mod_ids db) as [n ->].
    rewrite length_take, batches_length. lia.
  - intros Hc. destruct (cycle_returns E mod_ids db Hc) as (_ & _ & ->).
    by rewrite steam_posts_cycle_effects, batches_length.
  - reflexivity.
Qed.

Lemma request_count_witness :
  length (steam_posts (cycle_trace sample_env ids_150 db_7_120)) = (length ids_150 + 99) / 100.
Proof.
  apply (request_count sample_env ids_150 db_7_120). vm_compute. reflexivity.
Defined.

(** * Cycles in which nothing is observed *)

Lemma cycle_results_none E k bs :
  (∀ j b, batch_results (steam_api E j b) = []) → cycle_results E k bs = [].
Proof.
  intros Hnone. revert k. induction bs as [|b bs IH]; intros k; [done |].
  simpl. by rewrite Hnone, IH.
Qed.

Lemma cycle_effects_all_failed E k bs :
  (∀ j b, batch_ok (steam_api E j b) = false) →
  cycle_effects E k bs = SteamPost <$> bs.
Proof.
  intros Hfail. revert k. induction bs as [|b bs IH]; intros k; [done |].
  simpl. by rewrite Hfail, IH.
Qed.

Lemma batch_results_failed r : batch_ok r = false → batch_results r = [].
Proof. by destruct r as [[[?|]]|]. Qed.

Lemma cycle_raises_all_failed E k bs v :
  (∀ j b, batch_ok (steam_api E j b) = false) → cycle_raises E k bs v = None.
Proof.
  intros Hfail. revert k. induction bs as [|b bs IH]; intros k; [done |].
  simpl. specialize (Hfail k b).
  by destruct (steam_api E k b) as [[[[[entries|]]|]]|].
Qed.

(** X3: when every request of a cycle fails (exception, or a body without
    ['response']), all the batches are still requested, one after the other
    with no sleep, nothing is returned and the table is left as it was. *)
Theorem offline_cycle_is_noop E mod_ids db :
  (∀ k b, batch_ok (steam_api E k b) = false) →
  check_for_updates E mod_ids db = Returns [] db (SteamPost <$> batches mod_ids).
Proof.
  intros Hfail. pose proof (cycle_outcome E mod_ids db) as H.
  rewrite cycle_raises_all_failed in H by done. rewrite H. unfold observations.
  rewrite cycle_results_none, cycle_effects_all_failed; [done.. |].
  intros j b. apply batch_results_failed, Hfail.
Qed.

Lemma offline_cycle_is_noop_witness :
  check_for_updates offline_env ids_150 db_7_120 =
    Returns [] db_7_120 (SteamPost <$> batches ids_150).
Proof.
  apply (offline_cycle_is_noop offline_env ids_150 db_7_120).
  intros k b. reflexivity.
Defined.

Lemma code_1_details_none entries :
  Forall (λ fd, entry_code fd ≠ Some 1%Z) entries → code_1_details entries = [].
Proof.
  intros Hbad. induction Hbad as [|fd entries Hfd _ IH]; [done |].
  rewrite (code_1_details_cons fd entries), IH, app_nil_r.
  destruct fd as [d| |code]; try done.
  unfold code_1_details. simpl. rewrite decide_False; [done |].
  unfold succeeded. intros Heq. apply Hfd. simpl. by rewrite Heq.
Qed.

(** X4: results whose code is not 1 are skipped: when no answered batch
    holds a result with code 1, the cycle returns no event and leaves the
    table as it was. *)
Theorem unsuccessful_results_ignored E mod_ids db :
  (∀ k b entries,
     steam_api E k b = Some (ModData (Some (ResponseBody (Some entries)))) →
     Forall (λ fd, entry_code fd ≠ Some 1%Z) entries) →
  cycle_events E mod_ids db = [] ∧ cycle_db E mod_ids db = db.
Proof.
  intros Hbad. destruct (cycle_exception E mod_ids db) as [e|] eqn:Hc.
  - by destruct (cycle_raised E mod_ids db e Hc) as (-> & -> & _).
  - assert (observations E mod_ids = []) as Hobs.
    { apply cycle_results_none. intros j b. unfold batch_results.
      destruct (steam_api E j b) as [[[[[entries|]]|]]|] eqn:Hr; try done.
      apply code_1_details_none. by apply (Hbad j b). }
    destruct (cycle_returns E mod_ids db Hc) as (-> & -> & _). by rewrite Hobs.
Qed.

Lemma unsuccessful_results_ignored_witness :
  cycle_events (steady_env [FileDetails 9 "7" None None]) ids_150 db_7_120 = [] ∧
  cycle_db (steady_env [FileDetails 9 "7" None None]) ids_150 db_7_120 = db_7_120.
Proof.
  apply (unsuccessful_results_ignored (steady_env [FileDetails 9 "7" None None])).
  intros k b entries [= <-]. constructor; [simpl; discriminate | constructor].
Defined.

(** * Which rows exist, and which events are returned *)

Lemma reconcile_dom E l w :
  Forall succeeded l →
  dom (conn (reconcile E l w)) =
  dom (conn w) ∪ list_to_set (publishedfileid <$> l).
Proof.
  intros Hl. revert w. induction Hl as [|d l Hd _ IH]; intros w.
  - rewrite reconcile_nil. simpl. by rewrite (right_id_L ∅ (∪)).
  - rewrite reconcile_cons, IH, reconcile_step by done. simpl.
    rewrite dom_insert_L, (comm_L (∪) {[publishedfileid d]} (dom (conn w))).
    by rewrite (assoc_L (∪)).
Qed.

(** X5: a cycle deletes no row and creates rows only for ids that Steam
    reported with code 1; when the cycle returns, the ids with a row are
    exactly those that had one and those of the results recorded. *)
Theorem rows_after_cycle E mod_ids db :
  dom db ⊆ dom (cycle_db E mod_ids db) ∧
  dom (cycle_db E mod_ids db) ⊆
    dom db ∪ list_to_set (publishedfileid <$> observations E mod_ids) ∧
  (cycle_exception E mod_ids db = None →
   dom (cycle_db E mod_ids db) =
   dom db ∪ list_to_set (publishedfileid <$> observations E mod_ids)).
Proof.
  destruct (cycle_exception E mod_ids db) as [e|] eqn:Hc.
  - destruct (cycle_raised E mod_ids db e Hc) as (_ & -> & _).
    split; [done |]. split; [apply union_subseteq_l | done].
  - destruct (cycle_returns E mod_ids db Hc) as (_ & -> & _).
    rewrite reconcile_dom by apply observations_succeeded. simpl.
    split; [apply union_subseteq_l |]. done.
Qed.

Lemma rows_after_cycle_witness :
  dom (cycle_db sample_env sample_ids ∅) =
  dom (∅ : gmap string row) ∪
    list_to_set (publishedfileid <$> observations sample_env sample_ids).
Proof.
  apply (rows_after_cycle sample_env sample_ids ∅). vm_compute. reflexivity.
Defined.

Lemma emitted_sublist E d old : emitted E d old `sublist_of` [change_event E d].
Proof.
  unfold emitted. destruct old as [r|]; [| apply sublist_nil_l].
  case_decide; [done | apply sublist_nil_l].
Qed.

Lemma reconcile_events_sublist E l w :
  Forall succeeded l →
  ∃ evs, updated_mods (reconcile E l w) = updated_mods w ++ evs ∧
         evs `sublist_of` (change_event E <$> l).
Proof.
  intros Hl. revert w. induction Hl as [|d l Hd _ IH]; intros w.
  - exists []. rewrite reconcile_nil, app_nil_r. done.
  - rewrite reconcile_cons. destruct (IH (reconcile E [d] w)) as (evs & -> & Hsub).
    rewrite reconcile_step by done. simpl.
    exists (emitted E d (conn w !! publishedfileid d) ++ evs).
    split; [by rewrite app_assoc |].
    apply (sublist_app _ [change_event E d] _ (change_event E <$> l));
      [apply emitted_sublist | done].
Qed.

Lemma cycle_events_sublist E mod_ids db :
  cycle_events E mod_ids db `sublist_of` (change_event E <$> observations E mod_ids).
Proof.
  destruct (cycle_exception E mod_ids db) as [e|] eqn:Hc.
  - destruct (cycle_raised E mod_ids db e Hc) as (-> & _). apply sublist_nil_l.
  - destruct (cycle_returns E mod_ids db Hc) as (-> & _).
    destruct (reconcile_events_sublist E (observations E mod_ids) (initial_world db)
                (observations_succeeded E mod_ids)) as (evs & -> & Hsub).
    done.
Qed.

(** X6: the returned list is made of the events of processed results, in
    processing order, each result giving at most one: it is a sublist of the
    events of the cycle's results. *)
Theorem events_in_processing_order E mod_ids db :
  cycle_events E mod_ids db `sublist_of` (change_event E <$> observations E mod_ids) ∧
  length (cycle_events E mod_ids db) ≤ length (observations E mod_ids).
Proof.
  pose proof (cycle_events_sublist E mod_ids db) as Hsub.
  split; [done |]. apply sublist_length in Hsub. by rewrite length_fmap in Hsub.
Qed.

Lemma reconcile_unseen_silent E l w :
  Forall succeeded l →
  NoDup (publishedfileid <$> l) →
  (∀ d, d ∈ l → conn w !! publishedfileid d = None) →
  updated_mods (reconcile E l w) = updated_mods w.
Proof.
  intros Hl. revert w. induction Hl as [|d l Hd _ IH]; intros w Hnd Hnone; [done |].
  rewrite fmap_cons in Hnd. apply NoDup_cons in Hnd as [Hd' Hnd].
  rewrite reconcile_cons, IH; [| done |].
  - rewrite reconcile_step by done. simpl.
    rewrite (Hnone d) by apply list_elem_of_here. simpl. by rewrite app_nil_r.
  - intros d' Hin. rewrite reconcile_step by done. simpl.
    rewrite lookup_insert_ne.
    + apply Hnone. by apply list_elem_of_further.
    + intros Heq. apply Hd'. rewrite Heq. by apply list_elem_of_fmap_2.
Qed.

Lemma cycle_unseen_silent E mod_ids db :
  NoDup (publishedfileid <$> observations E mod_ids) →
  (∀ d, d ∈ observations E mod_ids → db !! publishedfileid d = None) →
  cycle_events E mod_ids db = [].
Proof.
  intros Hnd Hnone. destruct (cycle_exception E mod_ids db) as [e|] eqn:Hc.
  - by destruct (cycle_raised E mod_ids db e Hc) as (-> & _).
  - destruct (cycle_returns E mod_ids db Hc) as (-> & _).
    by rewrite reconcile_unseen_silent; [| apply observations_succeeded | |].
Qed.

(** X7: on a database file without the table, [init_database] gives an empty
    table, and a first cycle in which no id is reported twice returns no
    event; when that cycle returns, every reported id has its row with the
    observed [last_updated] and name. *)
Theorem first_cycle_on_fresh_database E mod_ids :
  NoDup (publishedfileid <$> observations E mod_ids) →
  cycle_events E mod_ids (init_database None) = [] ∧
  (cycle_exception E mod_ids (init_database None) = None →
   ∀ d, d ∈ observations E mod_ids →
        row_version <$> cycle_db E mod_ids (init_database None) !! publishedfileid d =
        Some (observed_updated d, observed_name d)).
Proof.
  intros Hnd. split; [by apply cycle_unseen_silent |].
  intros Hc d Hin. apply list_elem_of_split in Hin as (pre & post & Hobs).
  rewrite Hobs, fmap_app, fmap_cons in Hnd.
  apply NoDup_app in Hnd as (_ & Hpre & Hpost).
  apply NoDup_cons in Hpost as [Hpost _].
  destruct (cycle_single E mod_ids (init_database None) pre d post Hc Hobs) as [-> _].
  - rewrite fmap_app. intros [Hin|Hin]%elem_of_app; [| done].
    apply (Hpre _ Hin). apply list_elem_of_here.
  - done.
Qed.

Lemma first_cycle_on_fresh_database_witness :
  cycle_events sample_env sample_ids (init_database None) = [] ∧
  row_version <$> cycle_db sample_env sample_ids (init_database None)
                    !! publishedfileid sample_details =
    Some (observed_updated sample_details, observed_name sample_details).
Proof.
  destruct (first_cycle_on_fresh_database sample_env sample_ids) as [Hsilent Hrows].
  - vm_compute. apply NoDup_singleton.
  - split; [exact Hsilent |]. apply Hrows.
    + vm_compute. reflexivity.
    + apply list_elem_of_here.
Defined.

(** * What a repeated cycle changes *)

Lemma reconcile_dominated_version E l w i :
  Forall succeeded l → Forall (dominated (conn w)) l →
  row_version <$> conn (reconcile E l w) !! i = row_version <$> conn w !! i.
Proof.
  intros Hl. revert w. induction Hl as [|d l Hd _ IH]; intros w Hdom; [done |].
  apply Forall_cons in Hdom as [Hd0 Hdom].
  rewrite reconcile_cons, IH.
  - rewrite reconcile_step by done. simpl.
    destruct (decide (publishedfileid d = i)) as [<-|Hne].
    + rewrite lookup_insert_eq. destruct Hd0 as (r & -> & Hle). simpl.
      by rewrite decide_False by lia.
    + by rewrite lookup_insert_ne.
  - eapply Forall_impl; [exact Hdom |]. intros d'. apply dominated_preserved.
Qed.

(** X8: a second cycle with the same replies changes nothing but
    [last_checked]: every row keeps its [last_updated] and its name, and no
    row appears. *)
Theorem second_cycle_keeps_versions E1 E2 mod_ids db i :
  (∀ k b, steam_api E2 k b = steam_api E1 k b) →
  row_version <$> cycle_db E2 mod_ids (cycle_db E1 mod_ids db) !! i =
  row_version <$> cycle_db E1 mod_ids db !! i.
Proof.
  intros Hsame. destruct (cycle_exception E1 mod_ids db) as [e|] eqn:Hc.
  - destruct (cycle_raised E1 mod_ids db e Hc) as (_ & -> & _).
    rewrite <- (cycle_exception_ext E1 E2 mod_ids db Hsame) in Hc.
    by destruct (cycle_raised E2 mod_ids db e Hc) as (_ & -> & _).
  - pose proof (cycle_db_dominates E1 mod_ids db Hc) as Hdom.
    destruct (cycle_exception E2 mod_ids (cycle_db E1 mod_ids db)) as [e|] eqn:Hc2.
    + by destruct (cycle_raised E2 mod_ids _ e Hc2) as (_ & -> & _).
    + destruct (cycle_returns E2 mod_ids _ Hc2) as (_ & -> & _).
      rewrite reconcile_dominated_version; [done | apply observations_succeeded |].
      by rewrite (observations_ext E1 E2 mod_ids Hsame).
Qed.

Lemma second_cycle_keeps_versions_witness :
  row_version <$> cycle_db sample_env sample_ids
                    (cycle_db sample_env sample_ids (sample_db 1650000000))
                    !! "2579252958"%string =
  row_version <$> cycle_db sample_env sample_ids (sample_db 1650000000)
                    !! "2579252958"%string.
Proof.
  apply (second_cycle_keeps_versions sample_env sample_env sample_ids
           (sample_db 1650000000) "2579252958").
  intros k b. reflexivity.
Defined.

Lemma reconcile_last_checked E l w i r :
  (∀ k, (last_checked r ≤ time_time E k)%Z) →
  conn w !! i = Some r →
  ∃ r', conn (reconcile E l w) !! i = Some r' ∧
        (last_checked r ≤ last_checked r')%Z.
Proof.
  intros Hclock.
  assert (∀ w r0, conn w !! i = Some r0 →
                  (last_checked r ≤ last_checked r0)%Z →
                  ∃ r', conn (reconcile E l w) !! i = Some r' ∧
                        (last_checked r ≤ last_checked r')%Z) as Hgen.
  { induction l as [|d l IH]; intros w0 r0 Hr0 Hle; [eauto |].
    rewrite reconcile_cons.
    assert (∃ r1, conn (reconcile E [d] w0) !! i = Some r1 ∧
                  (last_checked r ≤ last_checked r1)%Z) as (r1 & Hr1 & Hle1).
    { destruct (decide (succeeded d)) as [H|H].
      - rewrite reconcile_step by done. simpl.
        destruct (decide (publishedfileid d = i)) as [->|Hne].
        + rewrite lookup_insert_eq, Hr0. eexists; split; [done |].
          unfold reconciled_row. case_decide; simpl; apply Hclock.
        + rewrite lookup_insert_ne by done. eauto.
      - rewrite reconcile_skipped by done. eauto. }
    by apply (IH _ r1). }
  intros Hr. apply (Hgen w r Hr). lia.
Qed.

(** X9: [last_checked] does not go back over a cycle as long as the clock
    does not: when every clock read of the cycle is at least the stored
    [last_checked] of a row, the row's [last_checked] afterwards is at least
    the stored one. *)
Theorem last_checked_follows_clock E mod_ids db i r :
  db !! i = Some r →
  (∀ k, (last_checked r ≤ time_time E k)%Z) →
  ∃ r', cycle_db E mod_ids db !! i = Some r' ∧
        (last_checked r ≤ last_checked r')%Z.
Proof.
  intros Hr Hclock. destruct (cycle_exception E mod_ids db) as [e|] eqn:Hc.
  - destruct (cycle_raised E mod_ids db e Hc) as (_ & -> & _).
    exists r. split; [done | lia].
  - destruct (cycle_returns E mod_ids db Hc) as (_ & -> & _).
    by apply (reconcile_last_checked E _ (initial_world db)).
Qed.

Lemma last_checked_follows_clock_witness :
  ∃ r', cycle_db sample_env sample_ids (sample_db 1650000000) !! "2579252958"%string
          = Some r' ∧
        (1600000000 ≤ last_checked r')%Z.
Proof.
  apply (last_checked_follows_clock sample_env sample_ids (sample_db 1650000000)
           "2579252958" (Row 1650000000 "Community Framework" 1600000000)).
  - reflexivity.
  - intros k. simpl. lia.
Defined.

(** * The size of the embed *)


(** * One check, and the monitor *)

Lemma run_check_eq E now_iso mod_ids db :
  run_check E now_iso mod_ids db =
  (cycle_db E mod_ids db,
   cycle_trace E mod_ids db ++ send_discord_notification now_iso (cycle_events E mod_ids db)).
Proof.
  unfold run_check, cycle_db, cycle_trace, cycle_events.
  destruct (check_for_updates E mod_ids db) as [evs db' tr|e db' tr]; simpl.
  - destruct evs; [by rewrite app_nil_r | done].
  - by rewrite app_nil_r.
Qed.



Lemma run_check_dominated E now_iso mod_ids db :
  Forall (dominated db) (observations E mod_ids) →
  discord_posts (run_check E now_iso mod_ids db).2 = [] ∧
  Forall (dominated (run_check E now_iso mod_ids db).1) (observations E mod_ids).
Proof.
  intros Hdom. rewrite run_check_eq. simpl.
  rewrite cycle_silent_when_dominated by done. rewrite app_nil_r. split.
  - apply cycle_trace_no_discord.
  - eapply Forall_impl; [exact Hdom |].
    intros d. apply cycle_dominated_preserved.
Qed.

Lemma run_monitor_dominated E0 interval its mod_ids db :
  Forall (λ it, ∀ k b, steam_api it.1 k b = steam_api E0 k b) its →
  Forall (dominated db) (observations E0 mod_ids) →
  discord_posts (run_monitor interval its mod_ids db).2 = [].
Proof.
  intros Hits. revert db. induction Hits as [|it its Hit _ IH]; intros db Hdom; [done |].
  simpl. rewrite discord_posts_app. simpl.
  pose proof (observations_ext E0 it.1 mod_ids Hit) as Hobs.
  destruct (run_check_dominated it.1 it.2 mod_ids db) as [-> Hdom'];
    [by rewrite Hobs |].
  rewrite Hobs in Hdom'. by rewrite IH.
Qed.

(** A cycle that raises leaves the table as it was, so with the same replies
    every later cycle raises as well, and none posts to Discord. *)
Lemma run_monitor_raising E0 interval its mod_ids db e :
  Forall (λ it, ∀ k b, steam_api it.1 k b = steam_api E0 k b) its →
  cycle_exception E0 mod_ids db = Some e →
  discord_posts (run_monitor interval its mod_ids db).2 = [].
Proof.
  intros Hits Hc. induction Hits as [|it its Hit _ IH]; [done |].
  simpl. rewrite discord_posts_app. simpl.
  rewrite <- (cycle_exception_ext E0 it.1 mod_ids db Hit) in Hc.
  rewrite run_check_eq. simpl.
  destruct (cycle_raised it.1 mod_ids db e Hc) as (-> & -> & Hdp & _).
  rewrite app_nil_r, Hdp. simpl. apply IH.
Qed.

(** X12: while Steam keeps giving the replies of the first iteration, the
    monitor posts to Discord in the first iteration at most and never again:
    the posts of the whole run are those of the first check. *)
Theorem steady_monitor_notifies_once interval E0 now0 its mod_ids db :
  Forall (λ it, ∀ k b, steam_api it.1 k b = steam_api E0 k b) its →
  discord_posts (run_monitor interval ((E0, now0) :: its) mod_ids db).2 =
  discord_posts (run_check E0 now0 mod_ids db).2 ∧
  length (discord_posts (run_monitor interval ((E0, now0) :: its) mod_ids db).2) ≤ 1.
Proof.
  intros Hits. simpl. rewrite discord_posts_app. simpl.
  assert (discord_posts (run_monitor interval its mod_ids
                           (run_check E0 now0 mod_ids db).1).2 = []) as ->.
  { rewrite run_check_eq. simpl.
    destruct (cycle_exception E0 mod_ids db) as [e|] eqn:Hc.
    - destruct (cycle_raised E0 mod_ids db e Hc) as (_ & -> & _).
      by apply (run_monitor_raising E0 _ _ _ _ e).
    - apply (run_monitor_dominated E0); [done |]. by apply cycle_db_dominates. }
  rewrite app_nil_r. split; [done |].
  rewrite run_check_eq. simpl. rewrite discord_posts_app, cycle_trace_no_discord.
  simpl. destruct (cycle_events E0 mod_ids db); simpl; lia.
Qed.

Lemma steady_monitor_notifies_once_witness :
  discord_posts
    (run_monitor 3600
       ((sample_env, "2025-10-06T12:00:00"%string) ::
        [(sample_env, "2025-10-06T13:00:00"%string);
         (sample_env, "2025-10-06T14:00:00"%string)])
       sample_ids (sample_db 1650000000)).2 =
  discord_posts
    (run_check sample_env "2025-10-06T12:00:00" sample_ids (sample_db 1650000000)).2 ∧
  length (discord_posts
    (run_monitor 3600
       ((sample_env, "2025-10-06T12:00:00"%string) ::
        [(sample_env, "2025-10-06T13:00:00"%string);
         (sample_env, "2025-10-06T14:00:00"%string)])
       sample_ids (sample_db 1650000000)).2) ≤ 1.
Proof.
  apply (steady_monitor_notifies_once 3600 sample_env "2025-10-06T12:00:00"
           [(sample_env, "2025-10-06T13:00:00"%string);
            (sample_env, "2025-10-06T14:00:00"%string)]
           sample_ids (sample_db 1650000000)).
  repeat constructor.
Defined.





(** * The request posted to Steam *)








(** * Every returned event reports a change *)

Lemma cycle_events_ids_sublist E mod_ids db :
  id <$> cycle_events E mod_ids db `sublist_of`
  publishedfileid <$> observations E mod_ids.
Proof.
  pose proof (cycle_events_sublist E mod_ids db) as Hsub.
  apply (fmap_sublist id) in Hsub.
  by rewrite <- list_fmap_compose in Hsub.
Qed.

(** X15: when Steam reports no id twice in a cycle, no id is returned twice:
    the ids of the returned events are distinct. *)
Theorem no_mod_listed_twice E mod_ids db :
  NoDup (publishedfileid <$> observations E mod_ids) →
  NoDup (id <$> cycle_events E mod_ids db).
Proof.
  intros Hnd. eapply sublist_NoDup; [exact Hnd |].
  apply cycle_events_ids_sublist.
Qed.

Lemma no_mod_listed_twice_witness :
  id <$> cycle_events (steady_env [details_7; details_120]) ["7"%string; "120"%string]
           db_7_120 = ["7"%string; "120"%string] ∧
  NoDup (id <$> cycle_events (steady_env [details_7; details_120])
                  ["7"%string; "120"%string] db_7_120).
Proof.
  split; [vm_compute; reflexivity |].
  apply (no_mod_listed_twice (steady_env [details_7; details_120])
           ["7"%string; "120"%string] db_7_120).
  assert (publishedfileid <$> observations (steady_env [details_7; details_120])
                                ["7"%string; "120"%string]
          = ["7"%string; "120"%string]) as -> by (vm_compute; reflexivity).
  apply NoDup_cons. split.
  - intros H. apply list_elem_of_singleton in H. discriminate H.
  - apply NoDup_singleton.
Defined.

(** X16: when Steam reports no id twice in a cycle, every returned event is
    a real change: it is the event of a processed result whose id had a row
    before the cycle with a strictly older [last_updated], and the row now
    holds the observed [last_updated] and name. A first sighting or an
    unchanged mod is never returned. *)
Theorem events_report_changes E mod_ids db e :
  NoDup (publishedfileid <$> observations E mod_ids) →
  e ∈ cycle_events E mod_ids db →
  ∃ d r, d ∈ observations E mod_ids ∧ e = change_event E d ∧
         db !! id e = Some r ∧
         (last_updated r < observed_updated d)%Z ∧
         row_version <$> cycle_db E mod_ids db !! id e =
           Some (observed_updated d, observed_name d).
Proof.
  intros Hnd He.
  destruct (cycle_exception E mod_ids db) as [ex|] eqn:Hc.
  { destruct (cycle_raised E mod_ids db ex Hc) as (Hnil & _).
    rewrite Hnil in He. by apply not_elem_of_nil in He. }
  pose proof (cycle_events_sublist E mod_ids db) as Hsub.
  apply sublist_subseteq in Hsub. apply Hsub in He as Hin.
  apply list_elem_of_fmap in Hin as (d & -> & Hd).
  exists d. apply list_elem_of_split in Hd as Hsplit.
  destruct Hsplit as (pre & post & Hobs).
  assert (publishedfileid d ∉ publishedfileid <$> pre ++ post) as Hfresh.
  { rewrite Hobs, fmap_app, fmap_cons in Hnd.
    apply NoDup_app in Hnd as (_ & Hpre & Hpost).
    apply NoDup_cons in Hpost as [Hpost _].
    rewrite fmap_app. intros [Hin|Hin]%elem_of_app; [| done].
    apply (Hpre _ Hin). apply list_elem_of_here. }
  destruct (cycle_single E mod_ids db pre d post Hc Hobs Hfresh) as [Hrow Hevs].
  assert (change_event E d ∈ events_for (publishedfileid d) (cycle_events E mod_ids db))
    as Hmine by (by apply list_elem_of_filter).
  rewrite Hevs in Hmine. simpl. rewrite Hrow. unfold emitted in Hmine.
  destruct (db !! publishedfileid d) as [r|]; [| by apply not_elem_of_nil in Hmine].
  simpl. destruct (decide (last_updated r < observed_updated d)%Z) as [Hlt|];
    [| by apply not_elem_of_nil in Hmine].
  exists r. by repeat split.
Qed.

Lemma events_report_changes_witness :
  ∃ d r, d ∈ observations sample_env sample_ids ∧
         change_event sample_env sample_details = change_event sample_env d ∧
         sample_db 1650000000 !! id (change_event sample_env sample_details) = Some r ∧
         (last_updated r < observed_updated d)%Z ∧
         row_version <$> cycle_db sample_env sample_ids (sample_db 1650000000)
                           !! id (change_event sample_env sample_details) =
           Some (observed_updated d, observed_name d).
Proof.
  apply (events_report_changes sample_env sample_ids (sample_db 1650000000)
           (change_event sample_env sample_details)).
  - vm_compute. apply NoDup_singleton.
  - vm_compute. apply list_elem_of_here.
Defined.
